(** * Dual-layer toll system: plate tracker and toll decision

    A shallow embedding of [src/license_plate/plate_tracker.py]
    (class [PlateTracker]) and of the decision logic of
    [src/integration/toll_system.py] (class [DualLayerTollSystem]) together
    with [LicensePlateRecognizer.verify_authorized_plate], followed by the
    properties proved about them. *)

From Stdlib Require Import ZArith QArith Reals Lra Ascii.
From stdpp Require Import gmap strings list.

(** ** Python dictionaries

    Both [PlateTracker.objects] and [PlateTracker.disappeared] are Python
    dictionaries keyed by object id.  A Python dictionary iterates in
    insertion order, and the tracker relies on that order (rows of the
    distance matrix follow [objects.values()]), so a dictionary is an
    association list: assigning an existing key keeps its position, a new
    key goes last, and deleting or reading an absent key raises [KeyError],
    which is [None] here. *)
Module Dict.

Definition dict (V : Type) : Type := list (nat * V).

Definition keys {V} (d : dict V) : list nat := d.*1.
Definition values {V} (d : dict V) : list V := d.*2.

Fixpoint getitem {V} (d : dict V) (k : nat) : option V :=
  match d with
  | [] => None
  | (k', v) :: d' => if decide (k' = k) then Some v else getitem d' k
  end.

Fixpoint setitem {V} (d : dict V) (k : nat) (v : V) : dict V :=
  match d with
  | [] => [(k, v)]
  | (k', v') :: d' =>
      if decide (k' = k) then (k, v) :: d' else (k', v') :: setitem d' k v
  end.

Fixpoint delitem {V} (d : dict V) (k : nat) : option (dict V) :=
  match d with
  | [] => None
  | (k', v') :: d' =>
      if decide (k' = k) then Some d' else cons (k', v') <$> delitem d' k
  end.

End Dict.

(** A [for] loop whose body may raise. *)
Fixpoint for_each {A S} (body : S → A → option S) (l : list A) (s : S) : option S :=
  match l with
  | [] => Some s
  | x :: l' => s' ← body s x; for_each body l' s'
  end.

(** ** The plate tracker *)
Module Tracker.
Import Dict.

(** A detection, as the recognizer emits it: [bbox] is [(x, y, w, h)] in
    integer pixels; [text] may be absent ([detection.get('text', '')]);
    [confidence] is carried but never read by the tracker. *)
Record Detection := {
  bbox : Z * Z * Z * Z;
  text : option string;
  confidence : Q
}.

(** The value stored under an object id in [objects].  The two deques are
    lists, oldest element first. *)
Record TrackedObject := {
  centroid : Z * Z;
  plate_text : string;
  track_history : list (Z * Z);
  confidence_history : list Q
}.

Record PlateTracker := {
  next_object_id : nat;
  objects : dict TrackedObject;
  disappeared : dict Z;
  max_disappeared : Z;
  max_distance : Z
}.

(** [PlateTracker(max_disappeared, max_distance)] *)
Definition init (max_disappeared max_distance : Z) : PlateTracker :=
  {| next_object_id := 0; objects := []; disappeared := [];
     max_disappeared := max_disappeared; max_distance := max_distance |}.

Definition set_objects (t : PlateTracker) (o : dict TrackedObject) : PlateTracker :=
  {| next_object_id := next_object_id t; objects := o;
     disappeared := disappeared t;
     max_disappeared := max_disappeared t; max_distance := max_distance t |}.

Definition set_disappeared (t : PlateTracker) (d : dict Z) : PlateTracker :=
  {| next_object_id := next_object_id t; objects := objects t;
     disappeared := d;
     max_disappeared := max_disappeared t; max_distance := max_distance t |}.

(** [deque(maxlen=n).append(x)]: the oldest element falls out when full. *)
Definition deque_append {A} (maxlen : nat) (q : list A) (x : A) : list A :=
  if decide (maxlen ≤ length q)%nat
  then drop (S (length q) - maxlen) (q ++ [x])
  else q ++ [x].

Definition register (t : PlateTracker) (c : Z * Z) (txt : string) : PlateTracker :=
  {| next_object_id := S (next_object_id t);
     objects := setitem (objects t) (next_object_id t)
                  {| centroid := c; plate_text := txt;
                     track_history := []; confidence_history := [] |};
     disappeared := setitem (disappeared t) (next_object_id t) 0%Z;
     max_disappeared := max_disappeared t; max_distance := max_distance t |}.

Definition deregister (t : PlateTracker) (object_id : nat) : option PlateTracker :=
  o ← delitem (objects t) object_id;
  d ← delitem (disappeared t) object_id;
  Some (set_disappeared (set_objects t o) d).

(** Body of the loop of the empty-detections branch. *)
Definition age (t : PlateTracker) (object_id : nat) : option PlateTracker :=
  n ← getitem (disappeared t) object_id;
  let t1 := set_disappeared t (setitem (disappeared t) object_id (n + 1)%Z) in
  n1 ← getitem (disappeared t1) object_id;
  if bool_decide (n1 > max_disappeared t1)%Z then deregister t1 object_id
  else Some t1.

(** *** Numbers

    Coordinates, box sizes and [max_distance] are Python integers, and the
    tracker computes on them with binary64 numbers ([w / 2.0],
    [np.linalg.norm]) and with numpy's 64-bit integers (the subtraction of
    the centroid arrays).  The definitions below compute on [Z], without
    rounding and without wrap-around.  They give what the code computes
    when the numbers are those of an image: below [2 ^ 20] in absolute
    value, which is [coord].  Then centroids stay below [2 ^ 21], their
    differences below [2 ^ 22] and the sums of squares below [2 ^ 45], so
    that every intermediate value is exact in binary64; and the square
    roots of two different such sums, or of such a sum and the square of
    an integer, are more than [2 ^ -25] apart, where binary64 numbers are
    at most [2 ^ -30] apart, so that the rounding of the square root
    changes no comparison.  Outside of this range the code rounds, wraps
    around or raises, which is not modelled: the properties that depend on
    a centroid or on a distance are stated under [in_range]. *)
Definition coord (z : Z) : bool := (Z.abs z <? 2 ^ 20)%Z.

Definition coords_point (p : Z * Z) : bool := coord p.1 && coord p.2.

Definition coords_bbox (d : Detection) : bool :=
  let '(x, y, w, h) := bbox d in coord x && coord y && coord w && coord h.

(** The threshold, the centroids of the tracked entities and the boxes of
    the detections of a cycle are in the range above. *)
Definition in_range (t : PlateTracker) (detections : list Detection) : bool :=
  coord (max_distance t)
  && forallb (λ o, coords_point (centroid o)) (values (objects t))
  && forallb coords_bbox detections.

(** [int(x + w / 2.0)]: on integers [x + w / 2.0] is exactly [(2x + w) / 2]
    and [int] truncates toward zero. *)
Definition centroid_of (d : Detection) : Z * Z :=
  let '(x, y, w, h) := bbox d in
  (Z.quot (2 * x + w) 2, Z.quot (2 * y + h) 2).

Definition text_of (d : Detection) : string := default EmptyString (text d).

(** *** The distance matrix

    [D = np.linalg.norm(objs[:, np.newaxis] - inputs, axis=2)] holds the
    Euclidean distances between integer centroids.  The code only compares
    entries of [D] with one another and with [max_distance]; in the range
    [in_range] both comparisons are decided by the squared distances, which
    are integers, so [D] holds the squared distances here and [exceeds] is
    the test [D[row, col] > self.max_distance] ([exceeds_euclidean] below
    relates it to the real square root; [sqdist_in_range],
    [sqrt_separated] and [exceeds_separated] give the bounds the range
    rests on). *)
Definition sqdist (p q : Z * Z) : Z :=
  ((p.1 - q.1) * (p.1 - q.1) + (p.2 - q.2) * (p.2 - q.2))%Z.

Definition distance_matrix (object_centroids input_centroids : list (Z * Z))
  : list (list Z) :=
  (λ p, sqdist p <$> input_centroids) <$> object_centroids.

Definition exceeds (d2 max_distance : Z) : bool :=
  (max_distance <? 0)%Z || (max_distance * max_distance <? d2)%Z.

(** One row of [D.min(axis=1)]. *)
Definition row_min (r : list Z) : Z :=
  match r with
  | [] => 0%Z
  | x :: r' => foldl Z.min x r'
  end.

(** One row of [D.argmin(axis=1)]: the first index of the least entry. *)
Fixpoint argmin_from (best_i : nat) (best : Z) (i : nat) (r : list Z) : nat :=
  match r with
  | [] => best_i
  | x :: r' =>
      if (x <? best)%Z then argmin_from i x (S i) r'
      else argmin_from best_i best (S i) r'
  end.

Definition argmin (r : list Z) : nat :=
  match r with
  | [] => 0
  | x :: r' => argmin_from 0 x 1 r'
  end.

(** [a.argsort()]: the indices of [a] in ascending order of their entries.
    Equal entries are taken in index order, which is what numpy's default
    sort does on short arrays (it sorts them by insertion); the lemmas on
    the assignment loop below ([matches_spec], [loop_commits] and those on
    [commit]) hold for any list of pairs, whatever the order. *)
Fixpoint insert_by (k : Z) (i : nat) (l : list (Z * nat)) : list (Z * nat) :=
  match l with
  | [] => [(k, i)]
  | (k', i') :: l' =>
      if (k <=? k')%Z then (k, i) :: (k', i') :: l'
      else (k', i') :: insert_by k i l'
  end.

Definition argsort (a : list Z) : list nat :=
  (foldr (λ ki acc, insert_by ki.1 ki.2 acc) [] (zip a (seq 0 (length a)))).*2.

Definition enumerate {A} (l : list A) : list (nat * A) :=
  zip (seq 0 (length l)) l.

(** *** The assignment loop *)

(** State of the loop over [zip(rows, cols)]: the tracker and the two sets
    [used_row_indices], [used_col_indices]. *)
Definition loop_state : Type := PlateTracker * gset nat * gset nat.

(** The statements executed when a pair is committed (lines 71-79). *)
Definition commit (object_ids : list nat) (input_centroids : list (Z * Z))
    (plate_texts : list string) (st : loop_state) (rc : nat * nat)
  : option loop_state :=
  let '(t, used_row_indices, used_col_indices) := st in
  let '(row, col) := rc in
  object_id ← object_ids !! row;
  o ← getitem (objects t) object_id;
  c ← input_centroids !! col;
  txt ← plate_texts !! col;
  let o' :=
    {| centroid := c;
       plate_text := if decide (txt = EmptyString) then plate_text o else txt;
       track_history := deque_append 10 (track_history o) c;
       confidence_history := confidence_history o |} in
  let t1 := set_objects t (setitem (objects t) object_id o') in
  let t2 := set_disappeared t1 (setitem (disappeared t1) object_id 0%Z) in
  Some (t2, {[row]} ∪ used_row_indices, {[col]} ∪ used_col_indices).

Definition D_at (D : list (list Z)) (row col : nat) : option Z :=
  r ← D !! row; r !! col.

(** Whether the loop body reaches [continue] for the pair. *)
Definition skips (D : list (list Z)) (max_distance : Z)
    (used_row_indices used_col_indices : gset nat) (rc : nat * nat)
  : option bool :=
  if bool_decide (rc.1 ∈ used_row_indices) || bool_decide (rc.2 ∈ used_col_indices)
  then Some true
  else d ← D_at D rc.1 rc.2; Some (exceeds d max_distance).

Definition match_body (object_ids : list nat) (input_centroids : list (Z * Z))
    (plate_texts : list string) (D : list (list Z))
    (st : loop_state) (rc : nat * nat) : option loop_state :=
  b ← skips D (max_distance st.1.1) st.1.2 st.2 rc;
  if b : bool then Some st
  else commit object_ids input_centroids plate_texts st rc.

Definition get_tracked_objects (t : PlateTracker) : dict TrackedObject :=
  objects t.

(** The pairs [zip(rows, cols)] the loop walks. *)
Definition candidate_pairs (D : list (list Z)) : option (list (nat * nat)) :=
  let rows := argsort (row_min <$> D) in
  cols ← mapM (λ row, (argmin <$> D) !! row) rows;
  Some (zip rows cols).

(** [PlateTracker.update]: the tracker after the call, and the mapping the
    call returns. *)
Definition update (t : PlateTracker) (detections : list Detection)
  : option (PlateTracker * dict TrackedObject) :=
  if decide (length detections = 0) then
    t' ← for_each age (keys (disappeared t)) t;
    Some (t', get_tracked_objects t')
  else
    let input_centroids := centroid_of <$> detections in
    let plate_texts := text_of <$> detections in
    if decide (length (objects t) = 0) then
      t' ← for_each
             (λ t ic, txt ← plate_texts !! ic.1; Some (register t ic.2 txt))
             (enumerate input_centroids) t;
      Some (t', get_tracked_objects t')
    else
      let object_centroids := centroid <$> values (objects t) in
      let object_ids := keys (objects t) in
      let D := distance_matrix object_centroids input_centroids in
      pairs ← candidate_pairs D;
      st ← for_each (match_body object_ids input_centroids plate_texts D)
             pairs (t, ∅, ∅);
      Some (st.1.1, get_tracked_objects st.1.1).

End Tracker.

(** ** The toll decision *)
Module Toll.

(** Values of [results['system_decision']]. *)
Inductive Decision :=
  | PENDING | NO_PLATE_DETECTED | ACCESS_DENIED | SAFETY_VIOLATION
  | ACCESS_GRANTED | ERROR.

(** First argument of [log_violation]. *)
Inductive ViolationType := UNAUTHORIZED_PLATE | UNSAFE_DRIVER.

(** An element of the list [detect_and_recognize] returns; the key
    ['contour'] is never read by the decision and is left out. *)
Record Plate := {
  text : string;
  confidence : Q;
  bbox : Z * Z * Z * Z
}.

(** The dictionary [detect_drowsiness] returns, restricted to the keys the
    toll system reads, each through [.get(key, False)]: [None] is an absent
    key. *)
Record DrowsinessStatus := {
  drowsy : option bool;
  yawning : option bool;
  face_detected : option bool
}.

(** [status.get(key, False)] *)
Definition get_flag (v : option bool) : bool := default false v.

(** [self.current_session] *)
Record Session := {
  plate_detected : bool;
  plate_text : string;
  is_authorized : bool;
  driver_safe : bool;
  violation_count : Z;
  session_start : option Z
}.

(** One line of the violation log. *)
Record ViolationEntry := {
  timestamp : Z;
  violation_type : ViolationType;
  plate : string;
  session_id : Z
}.

(** What [verify_authorized_plate] finds at [AUTHORIZED_PLATES_DB]: no
    file, a file whose opening or reading raises, or the lines
    [f.readlines()] returns. *)
Inductive PlatesFile :=
  | Absent
  | Unreadable
  | Lines (lines : list string).

(** The toll system together with the files it reads and writes.
    [violation_log] is the content of the file at [VIOLATION_LOG], [None]
    when it cannot be opened for appending; [clock] is what
    [datetime.now()] returns and [session_ident] is
    [id(self.current_session)]. *)
Record System := {
  authorized_plates_db : PlatesFile;
  violation_log : option (list ViolationEntry);
  clock : Z;
  session_ident : Z;
  current_session : Session
}.

Definition set_violation_log (s : System) (l : option (list ViolationEntry)) : System :=
  {| authorized_plates_db := authorized_plates_db s; violation_log := l;
     clock := clock s; session_ident := session_ident s;
     current_session := current_session s |}.

Definition set_current_session (s : System) (c : Session) : System :=
  {| authorized_plates_db := authorized_plates_db s;
     violation_log := violation_log s;
     clock := clock s; session_ident := session_ident s;
     current_session := c |}.

(** *** Strings ([str.upper], [str.strip] on ASCII text) *)

Definition upper_ascii (c : ascii) : ascii :=
  let n := N_of_ascii c in
  if (97 <=? n)%N && (n <=? 122)%N then ascii_of_N (n - 32) else c.

Fixpoint upper (s : string) : string :=
  match s with
  | EmptyString => EmptyString
  | String c s' => String (upper_ascii c) (upper s')
  end.

Definition isspace (c : ascii) : bool :=
  let n := N_of_ascii c in
  ((9 <=? n)%N && (n <=? 13)%N) || ((28 <=? n)%N && (n <=? 32)%N).

Fixpoint lstrip (s : string) : string :=
  match s with
  | EmptyString => EmptyString
  | String c s' => if isspace c then lstrip s' else s
  end.

Fixpoint rstrip (s : string) : string :=
  match s with
  | EmptyString => EmptyString
  | String c s' =>
      match rstrip s' with
      | EmptyString => if isspace c then EmptyString else String c EmptyString
      | r => String c r
      end
  end.

Definition strip (s : string) : string := rstrip (lstrip s).

(** *** [LicensePlateRecognizer.verify_authorized_plate] *)
Definition verify_authorized_plate (s : System) (plate_text : string) : bool :=
  match authorized_plates_db s with
  | Lines lines =>
      let authorized_plates := (λ line, upper (strip line)) <$> lines in
      bool_decide (upper plate_text ∈ authorized_plates)
  | Absent => false
  | Unreadable => false
  end.

(** *** [DualLayerTollSystem] *)

(** [log_violation]: appends one entry; any exception while writing is
    caught and only reported. *)
Definition log_violation (s : System) (violation_type : ViolationType)
    (plate_text : string) : System :=
  let violation_entry :=
    {| timestamp := clock s; violation_type := violation_type;
       plate := plate_text; session_id := session_ident s |} in
  match violation_log s with
  | Some entries => set_violation_log s (Some (entries ++ [violation_entry]))
  | None => s
  end.

(** The loop that sets [authorized_plate_found]. *)
Fixpoint authorized_plate_found (s : System) (plates : list Plate) : bool :=
  match plates with
  | [] => false
  | plate :: plates' =>
      if verify_authorized_plate s (text plate) then true
      else authorized_plate_found s plates'
  end.

Definition make_toll_decision (s : System) (plates : list Plate)
    (drowsiness_status : DrowsinessStatus) : Decision * System :=
  match plates with
  | [] => (NO_PLATE_DETECTED, s)
  | plate0 :: _ =>
      if negb (authorized_plate_found s plates) then
        (ACCESS_DENIED, log_violation s UNAUTHORIZED_PLATE (text plate0))
      else if get_flag (drowsy drowsiness_status)
              || get_flag (yawning drowsiness_status) then
        (SAFETY_VIOLATION, log_violation s UNSAFE_DRIVER (text plate0))
      else (ACCESS_GRANTED, s)
  end.

Definition update_session_state (s : System) (plates : list Plate)
    (drowsiness_status : DrowsinessStatus) : System :=
  let c := current_session s in
  let c1 :=
    match plates with
    | plate0 :: _ =>
        {| plate_detected := true;
           plate_text := text plate0;
           is_authorized := verify_authorized_plate s (text plate0);
           driver_safe := driver_safe c;
           violation_count := violation_count c;
           session_start := session_start c |}
    | [] => c
    end in
  let safe := negb (get_flag (drowsy drowsiness_status)
                    || get_flag (yawning drowsiness_status)) in
  let c2 :=
    {| plate_detected := plate_detected c1; plate_text := plate_text c1;
       is_authorized := is_authorized c1;
       driver_safe := safe;
       violation_count :=
         if negb safe then (violation_count c1 + 1)%Z else violation_count c1;
       session_start := session_start c1 |} in
  set_current_session s c2.

(** Steps 3 and 4 of [process_frame], on what the two detectors returned;
    [None] stands for an exception raised by a detector, which
    [process_frame] catches. *)
Definition process_frame (s : System)
    (detected : option (list Plate * DrowsinessStatus)) : Decision * System :=
  match detected with
  | None => (ERROR, s)
  | Some (plates, drowsiness_status) =>
      let '(decision, s1) := make_toll_decision s plates drowsiness_status in
      (decision, update_session_state s1 plates drowsiness_status)
  end.

End Toll.

(** ** Specification-level definitions for the tracker *)
Module TrackerSpec.
Import Dict Tracker.

(** What [__init__], [register] and [deregister] maintain: the two
    dictionaries hold the same keys in the same order (keys of a dictionary
    are distinct), all below [next_object_id]. *)
Definition wf (t : PlateTracker) : Prop :=
  NoDup (keys (objects t)) ∧
  keys (disappeared t) = keys (objects t) ∧
  Forall (λ k, k < next_object_id t) (keys (objects t)).

(** What a cycle without detections leaves of [disappeared] and of
    [objects]: the entries whose incremented counter does not exceed
    [max_disappeared]. *)
Fixpoint aged_disappeared (max_disappeared : Z) (d : dict Z) : dict Z :=
  match d with
  | [] => []
  | (k, n) :: d' =>
      if bool_decide (n + 1 > max_disappeared)%Z
      then aged_disappeared max_disappeared d'
      else (k, (n + 1)%Z) :: aged_disappeared max_disappeared d'
  end.

Fixpoint aged_objects (max_disappeared : Z) (o : dict TrackedObject)
    (d : dict Z) : dict TrackedObject :=
  match o, d with
  | kv :: o', (_, n) :: d' =>
      if bool_decide (n + 1 > max_disappeared)%Z
      then aged_objects max_disappeared o' d'
      else kv :: aged_objects max_disappeared o' d'
  | _, _ => []
  end.

(** The pairs of [zip(rows, cols)] at which the assignment loop does not
    [continue], in the order the loop meets them. *)
Fixpoint matches (D : list (list Z)) (max_distance : Z)
    (pairs : list (nat * nat)) (used_row_indices used_col_indices : gset nat)
  : list (nat * nat) :=
  match pairs with
  | [] => []
  | rc :: pairs' =>
      match skips D max_distance used_row_indices used_col_indices rc with
      | Some false =>
          rc :: matches D max_distance pairs'
                  ({[rc.1]} ∪ used_row_indices) ({[rc.2]} ∪ used_col_indices)
      | _ => matches D max_distance pairs' used_row_indices used_col_indices
      end
  end.

(** The matches one call of [update] commits: pairs (row, column), the row
    counting the entities in the order of [objects], the column counting
    the detections. *)
Definition committed_pairs (t : PlateTracker) (detections : list Detection)
  : list (nat * nat) :=
  let D := distance_matrix (centroid <$> values (objects t))
             (centroid_of <$> detections) in
  match candidate_pairs D with
  | Some pairs => matches D (max_distance t) pairs ∅ ∅
  | None => []
  end.

(** The Euclidean distance between two integer points. *)
Definition euclidean (p q : Z * Z) : R := sqrt (IZR (sqdist p q)).

(** What a committed match with detection [d] makes of the entity [o]:
    the text of the entity is replaced when the detection has the key
    ['text'] with a non-empty value. *)
Definition matched (o : TrackedObject) (d : Detection) : TrackedObject :=
  {| centroid := centroid_of d;
     plate_text := match text d with
                   | Some (String c txt) => String c txt
                   | Some EmptyString | None => plate_text o
                   end;
     track_history := deque_append 10 (track_history o) (centroid_of d);
     confidence_history := confidence_history o |}.

End TrackerSpec.

(** ** Concrete inputs used by the examples below *)
Module Scenario.
Open Scope string_scope.
Open Scope Z_scope.

Definition newline : string := String (ascii_of_nat 10) EmptyString.

Definition fresh_session : Toll.Session :=
  {| Toll.plate_detected := false; Toll.plate_text := "";
     Toll.is_authorized := false; Toll.driver_safe := true;
     Toll.violation_count := 0; Toll.session_start := None |}.

(** A system whose allow-list file holds one plate. *)
Definition booth : Toll.System :=
  {| Toll.authorized_plates_db := Toll.Lines ["ab1234" +:+ newline];
     Toll.violation_log := Some [];
     Toll.clock := 1000; Toll.session_ident := 7;
     Toll.current_session := fresh_session |}.

(** The same system when reading the allow-list raises. *)
Definition booth_unreadable : Toll.System :=
  {| Toll.authorized_plates_db := Toll.Unreadable;
     Toll.violation_log := Some [];
     Toll.clock := 1000; Toll.session_ident := 7;
     Toll.current_session := fresh_session |}.

(** The same system when the violation log cannot be opened. *)
Definition booth_log_unwritable : Toll.System :=
  {| Toll.authorized_plates_db := Toll.Lines ["ab1234" +:+ newline];
     Toll.violation_log := None;
     Toll.clock := 1000; Toll.session_ident := 7;
     Toll.current_session := fresh_session |}.

Definition plate (txt : string) : Toll.Plate :=
  {| Toll.text := txt; Toll.confidence := 9 # 10;
     Toll.bbox := (50, 50, 200, 60) |}.

Definition alert : Toll.DrowsinessStatus :=
  {| Toll.drowsy := Some false; Toll.yawning := Some false;
     Toll.face_detected := Some true |}.

Definition sleepy : Toll.DrowsinessStatus :=
  {| Toll.drowsy := Some true; Toll.yawning := Some false;
     Toll.face_detected := Some true |}.

Definition detection (x y w h : Z) (txt : string) : Tracker.Detection :=
  {| Tracker.bbox := (x, y, w, h); Tracker.text := Some txt;
     Tracker.confidence := 9 # 10 |}.

Definition entity (c : Z * Z) (txt : string) : Tracker.TrackedObject :=
  {| Tracker.centroid := c; Tracker.plate_text := txt;
     Tracker.track_history := []; Tracker.confidence_history := [] |}.

(** A tracker (default thresholds) holding one entity that has gone
    [n] cycles without a match. *)
Definition lone_entity (n : Z) : Tracker.PlateTracker :=
  {| Tracker.next_object_id := 1;
     Tracker.objects := [(0%nat, entity (35, 20) "AB1234")];
     Tracker.disappeared := [(0%nat, n)];
     Tracker.max_disappeared := 30; Tracker.max_distance := 100 |}.

(** Two entities, both freshly seen. *)
Definition two_entities : Tracker.PlateTracker :=
  {| Tracker.next_object_id := 2;
     Tracker.objects := [(0%nat, entity (35, 20) "AB1234");
                         (1%nat, entity (300, 200) "CD5678")];
     Tracker.disappeared := [(0%nat, 0); (1%nat, 0)];
     Tracker.max_disappeared := 30; Tracker.max_distance := 100 |}.

(** Two detections for [two_entities]: the first sits on entity 1 and
    carries no text, the second is two pixels from entity 0. *)
Definition two_detections : list Tracker.Detection :=
  [detection 290 190 20 20 ""; detection 12 10 50 20 "AB1234"].

(** The same two detections when the second one reads another text. *)
Definition renaming_detections : list Tracker.Detection :=
  [detection 290 190 20 20 ""; detection 12 10 50 20 "XY0001"].

(** A detection far from the entity of [lone_entity]. *)
Definition far_detection : Tracker.Detection :=
  detection 1000 1000 50 20 "ZZ9999".

End Scenario.

(** ** Successive tracker cycles *)
Module Cycles.
Import Dict Tracker.

(** Successive calls of [update], one for each list of detections. *)
Definition updates (t : PlateTracker) (cycles : list (list Detection))
  : option PlateTracker :=
  for_each (λ t detections, fst <$> update t detections) cycles t.

(** What [register] stores for a detection: its text, the empty one when
    the key ['text'] is absent. *)
Definition new_entity (d : Detection) : TrackedObject :=
  {| centroid := centroid_of d;
     plate_text := match text d with Some txt => txt | None => EmptyString end;
     track_history := []; confidence_history := [] |}.


End Cycles.

(** ** The plate recognizer: text cleaning, format check, allow-list

    Texts are ASCII, as for [upper] and [strip] above. *)
Module Recognizer.
Import Toll.

(** *** Characters and strings *)

(** The classes [[A-Z]] and [[0-9]] of the regular expressions. *)
Definition is_capital (c : ascii) : bool :=
  let n := N_of_ascii c in (65 <=? n)%N && (n <=? 90)%N.

Definition is_digit (c : ascii) : bool :=
  let n := N_of_ascii c in (48 <=? n)%N && (n <=? 57)%N.

Definition is_plate_char (c : ascii) : bool := is_capital c || is_digit c.

Fixpoint string_filter (f : ascii → bool) (s : string) : string :=
  match s with
  | EmptyString => EmptyString
  | String c s' => if f c then String c (string_filter f s') else string_filter f s'
  end.

Fixpoint string_map (f : ascii → ascii) (s : string) : string :=
  match s with
  | EmptyString => EmptyString
  | String c s' => String (f c) (string_map f s')
  end.

Fixpoint string_exists (f : ascii → bool) (s : string) : bool :=
  match s with
  | EmptyString => false
  | String c s' => f c || string_exists f s'
  end.

Fixpoint string_forall (f : ascii → bool) (s : string) : bool :=
  match s with
  | EmptyString => true
  | String c s' => f c && string_forall f s'
  end.

(** *** [clean_plate_text] *)

(** The dictionary [corrections]. *)
Definition corrections : list (ascii * ascii) :=
  [("O", "0"); ("I", "1"); ("L", "1"); ("Z", "2");
   ("S", "5"); ("B", "8"); ("G", "6")]%char.

(** [d.get(key, fallback)] on a dictionary of characters. *)
Fixpoint get_char (d : list (ascii * ascii)) (key fallback : ascii) : ascii :=
  match d with
  | [] => fallback
  | (k, v) :: d' => if Ascii.eqb k key then v else get_char d' key fallback
  end.

(** The keys of [corrections]. *)
Definition corrected_letter (c : ascii) : bool :=
  existsb (λ kv, Ascii.eqb kv.1 c) corrections.

(** [re.sub(r'[^A-Z0-9]', '', text.upper())], then the corrections when
    the cleaned text has between 4 and 10 characters. *)
Definition clean_plate_text (text : string) : string :=
  let cleaned := string_filter is_plate_char (upper text) in
  if (4 <=? String.length cleaned) && (String.length cleaned <=? 10)
  then string_map (λ char, get_char corrections char char) cleaned
  else cleaned.

(** *** Regular expressions

    The patterns of [is_valid_plate_format] are sequences of character
    classes, each repeated between a least and a greatest number of times,
    anchored at both ends.  [re.match] finds a match when some choice of
    the numbers of repetitions works, which is what [match_rep] decides;
    [$] matches at the end of the text and before a newline that ends
    it. *)
Fixpoint match_rep (cls : ascii → bool) (lo hi : nat) (k : string → bool)
    (s : string) : bool :=
  match hi with
  | 0 => (lo =? 0) && k s
  | S hi' =>
      ((lo =? 0) && k s)
      || match s with
         | EmptyString => false
         | String c s' => cls c && match_rep cls (pred lo) hi' k s'
         end
  end.

Definition at_end (s : string) : bool :=
  match s with
  | EmptyString => true
  | String c EmptyString => Ascii.eqb c "010"
  | _ => false
  end.

Fixpoint re_match (pattern : list ((ascii → bool) * nat * nat)) (s : string)
  : bool :=
  match pattern with
  | [] => at_end s
  | (cls, lo, hi) :: pattern' => match_rep cls lo hi (re_match pattern') s
  end.

(** The list [patterns]. *)
Definition patterns : list (list ((ascii → bool) * nat * nat)) :=
  [ [(is_capital, 2, 2); (is_digit, 2, 2); (is_capital, 2, 2); (is_digit, 4, 4)];
    [(is_capital, 3, 3); (is_digit, 4, 4)];
    [(is_digit, 2, 2); (is_capital, 2, 2); (is_digit, 4, 4)];
    [(is_capital, 2, 2); (is_digit, 4, 4)];
    [(is_digit, 3, 3); (is_capital, 3, 3)];
    [(is_capital, 1, 3); (is_digit, 1, 4); (is_capital, 0, 2)] ].

Definition is_valid_plate_format (text : string) : bool :=
  if (String.length text <? 4) || (10 <? String.length text) then false
  else if existsb (λ pattern, re_match pattern text) patterns then true
  else
    let has_letter := string_exists is_capital text in
    let has_number := string_exists is_digit text in
    has_letter && has_number && (4 <=? String.length text).

(** *** The allow-list file

    The file at [AUTHORIZED_PLATES_DB] is opened in text mode.  Reading
    translates the line ends CR LF and CR into LF ([universal_newlines]),
    and [f.readlines()] cuts the translated text after each LF
    ([split_lines]).  Writing leaves a text as it is, or spells LF as the
    line end of the platform, which reading translates back.  The text of
    a file is the concatenation of its lines. *)
Definition is_newline (c : ascii) : bool := Ascii.eqb c "010".

Definition is_return (c : ascii) : bool := Ascii.eqb c "013".

Definition is_line_break (c : ascii) : bool := is_newline c || is_return c.

(** The characters on which [upper], [strip] and [isspace] above are
    those of Python. *)
Definition is_ascii (c : ascii) : bool := (N_of_ascii c <? 128)%N.

Definition starts_with_newline (content : string) : bool :=
  match content with
  | EmptyString => false
  | String c _ => is_newline c
  end.

Fixpoint universal_newlines (content : string) : string :=
  match content with
  | EmptyString => EmptyString
  | String c rest =>
      if is_return c then
        if starts_with_newline rest then universal_newlines rest
        else String "010" (universal_newlines rest)
      else String c (universal_newlines rest)
  end.

Fixpoint split_lines (content : string) : list string :=
  match content with
  | EmptyString => []
  | String c rest =>
      if is_newline c then String c EmptyString :: split_lines rest
      else match split_lines rest with
           | [] => [String c EmptyString]
           | line :: lines => String c line :: lines
           end
  end.

Definition readlines (content : string) : list string :=
  split_lines (universal_newlines content).

Definition file_text (lines : list string) : string :=
  String.concat EmptyString lines.

(** Whether a text is empty or ends with a newline. *)
Fixpoint complete_text (content : string) : bool :=
  match content with
  | EmptyString => true
  | String c rest =>
      match rest with
      | EmptyString => Ascii.eqb c "010"
      | _ => complete_text rest
      end
  end.

(** The allow-list, when it can be read, holds the lines of a text that is
    empty or ends with a newline. *)
Definition allow_list_complete (s : System) : Prop :=
  match authorized_plates_db s with
  | Lines lines =>
      readlines (file_text lines) = lines ∧
      complete_text (file_text lines) = true
  | _ => True
  end.

Definition set_authorized_plates_db (s : System) (f : PlatesFile) : System :=
  {| authorized_plates_db := f; violation_log := violation_log s;
     clock := clock s; session_ident := session_ident s;
     current_session := current_session s |}.

(** [add_authorized_plate]: the result and the system afterwards.
    [can_write] tells whether creating the directory and opening the file
    for appending succeed; every exception makes the result [False].
    After the write the file reads as what it read before followed by the
    entry.  (One file is outside of this: a file whose last character is
    a carriage return without line feed takes an entry that starts with a
    line feed, that of an empty plate text, as the end of its last line.) *)
Definition add_authorized_plate (s : System) (can_write : bool)
    (plate_text : string) : bool * System :=
  let entry := upper plate_text +:+ String "010" EmptyString in
  match authorized_plates_db s with
  | Unreadable => (false, s)
  | Lines lines =>
      let existing_plates := (λ line, upper (strip line)) <$> lines in
      if bool_decide (upper plate_text ∈ existing_plates) then (true, s)
      else if can_write then
        (true, set_authorized_plates_db s
                 (Lines (readlines (file_text lines +:+ entry))))
      else (false, s)
  | Absent =>
      if can_write then
        (true, set_authorized_plates_db s (Lines (readlines entry)))
      else (false, s)
  end.

End Recognizer.

(** ** The camera loop *)
Module Feed.
Import Toll.

(** The key [cv2.waitKey] reports after a frame: ['q'], ['r'], ['s'], or
    anything else (no key included). *)
Inductive Key := KeyQuit | KeyReset | KeySave | KeyOther.

(** One turn of the loop of [run_camera_feed] in which [cap.read()]
    delivered a frame: what [datetime.now()] returns while the frame is
    processed, what the two detectors return ([None] when one raises), the
    key read afterwards and, for the reset key, what [time.time()] returns
    and the identity of the new session dictionary. *)
Record Tick := {
  tick_clock : Z;
  tick_detected : option (list Plate * DrowsinessStatus);
  tick_key : Key;
  tick_time : Z;
  tick_ident : Z
}.

Definition set_clock (s : System) (now : Z) : System :=
  {| authorized_plates_db := authorized_plates_db s;
     violation_log := violation_log s;
     clock := now; session_ident := session_ident s;
     current_session := current_session s |}.

(** The assignment made on the key ['r']. *)
Definition reset_session (s : System) (now ident : Z) : System :=
  {| authorized_plates_db := authorized_plates_db s;
     violation_log := violation_log s;
     clock := clock s; session_ident := ident;
     current_session :=
       {| plate_detected := false; plate_text := EmptyString;
          is_authorized := false; driver_safe := true;
          violation_count := 0; session_start := Some now |} |}.

(** The loop of [run_camera_feed] over the frames the camera delivers: the
    decisions shown, frame by frame, and the system when the loop ends (on
    the key ['q'], or when the frames run out). *)
Fixpoint run_camera_feed (s : System) (ticks : list Tick)
  : list Decision * System :=
  match ticks with
  | [] => ([], s)
  | t :: ticks' =>
      let '(decision, s1) :=
        process_frame (set_clock s (tick_clock t)) (tick_detected t) in
      match tick_key t with
      | KeyQuit => ([decision], s1)
      | KeyReset =>
          let '(decisions, s2) :=
            run_camera_feed (reset_session s1 (tick_time t) (tick_ident t))
              ticks' in
          (decision :: decisions, s2)
      | _ =>
          let '(decisions, s2) := run_camera_feed s1 ticks' in
          (decision :: decisions, s2)
      end
  end.

(** Whether the detectors delivered a status that is drowsy or yawning. *)
Definition unsafe_tick (t : Tick) : bool :=
  match tick_detected t with
  | Some (_, status) => get_flag (drowsy status) || get_flag (yawning status)
  | None => false
  end.

(** The turns the loop goes through: those up to the first ['q']. *)
Fixpoint processed (ticks : list Tick) : list Tick :=
  match ticks with
  | [] => []
  | t :: ticks' =>
      match tick_key t with
      | KeyQuit => [t]
      | _ => t :: processed ticks'
      end
  end.

(** Whether the detectors delivered at least one plate. *)
Definition plate_tick (t : Tick) : bool :=
  match tick_detected t with
  | Some (_ :: _, _) => true
  | _ => false
  end.

(** Whether a decision is one of the two that [make_toll_decision] logs. *)
Definition logged_decision (d : Decision) : bool :=
  match d with
  | ACCESS_DENIED | SAFETY_VIOLATION => true
  | _ => false
  end.

End Feed.

(** ** Further concrete inputs *)
Module Cases.
Open Scope string_scope.
Open Scope Z_scope.

(** Turns of the camera loop: a drowsy driver without plate, then the
    reset key, then two more drowsy frames, the second with an
    unauthorized plate. *)
Definition tick (detected : option (list Toll.Plate * Toll.DrowsinessStatus))
    (key : Feed.Key) : Feed.Tick :=
  {| Feed.tick_clock := 1000; Feed.tick_detected := detected;
     Feed.tick_key := key; Feed.tick_time := 2000; Feed.tick_ident := 8 |}.

Definition before_reset : list Feed.Tick :=
  [tick (Some ([], Scenario.sleepy)) Feed.KeyOther; tick (Some ([], Scenario.alert)) Feed.KeyReset].

Definition after_reset : list Feed.Tick :=
  [tick (Some ([], Scenario.sleepy)) Feed.KeyOther;
   tick (Some ([Scenario.plate "ZZ9999"], Scenario.sleepy)) Feed.KeySave;
   tick None Feed.KeyQuit;
   tick (Some ([], Scenario.sleepy)) Feed.KeyOther].

End Cases.

(** * Dictionary lemmas *)
Module DictFacts.
Import Dict.

Section Facts.
Context {V : Type}.
Implicit Types (d pre : dict V) (k : nat) (v : V).

Lemma getitem_Some_elem d k v : getitem d k = Some v → (k, v) ∈ d.
Proof.
  induction d as [|[k' v'] d IH]; simpl; [done|].
  case_decide; [intros [= ->]; subst; left | intros; right; auto].
Qed.

Lemma getitem_is_Some d k : is_Some (getitem d k) ↔ k ∈ keys d.
Proof.
  unfold keys. induction d as [|[k' v'] d IH]; simpl.
  - split; [by intros [? ?] | by intros ?%elem_of_nil].
  - case_decide; subst.
    + split; [intros _; left | eauto].
    + rewrite IH, elem_of_cons. split; [by right | by intros [?|?]].
Qed.

Lemma getitem_None d k : getitem d k = None ↔ k ∉ keys d.
Proof. rewrite <-getitem_is_Some, eq_None_not_Some. done. Qed.

Lemma getitem_app_notin pre d k :
  k ∉ keys pre → getitem (pre ++ d) k = getitem d k.
Proof.
  unfold keys. induction pre as [|[k' v'] pre IH]; simpl; [done|].
  intros Hk. apply not_elem_of_cons in Hk as [? ?].
  case_decide; [congruence | auto].
Qed.

Lemma setitem_app_hit pre d k v v' :
  k ∉ keys pre → setitem (pre ++ (k, v) :: d) k v' = pre ++ (k, v') :: d.
Proof.
  unfold keys. induction pre as [|[k' w] pre IH]; simpl.
  - intros _. by case_decide.
  - intros Hk. apply not_elem_of_cons in Hk as [? ?].
    case_decide; [congruence | by rewrite IH].
Qed.

Lemma delitem_app_hit pre d k v :
  k ∉ keys pre → delitem (pre ++ (k, v) :: d) k = Some (pre ++ d).
Proof.
  unfold keys. induction pre as [|[k' w] pre IH]; simpl.
  - intros _. by case_decide.
  - intros Hk. apply not_elem_of_cons in Hk as [? ?].
    case_decide; [congruence | by rewrite IH].
Qed.

Lemma getitem_setitem_eq d k v : getitem (setitem d k v) k = Some v.
Proof.
  induction d as [|[k' w] d IH]; simpl.
  - by case_decide.
  - case_decide; simpl; case_decide; done.
Qed.

Lemma getitem_setitem_ne d k k' v :
  k ≠ k' → getitem (setitem d k v) k' = getitem d k'.
Proof.
  intros Hne. induction d as [|[k0 w] d IH]; simpl.
  - by case_decide.
  - case_decide; simpl; repeat case_decide; subst; done.
Qed.

Lemma keys_setitem_in d k v : k ∈ keys d → keys (setitem d k v) = keys d.
Proof.
  unfold keys. induction d as [|[k' w] d IH]; simpl.
  - by intros ?%elem_of_nil.
  - intros Hk. case_decide; subst; simpl; [done|].
    apply elem_of_cons in Hk as [?|?]; [congruence|]. f_equal. by apply IH.
Qed.

Lemma keys_setitem_notin d k v : k ∉ keys d → keys (setitem d k v) = keys d ++ [k].
Proof.
  unfold keys. induction d as [|[k' w] d IH]; simpl; [done|].
  intros Hk. apply not_elem_of_cons in Hk as [? ?].
  case_decide; [congruence|]. simpl. f_equal. by apply IH.
Qed.

Lemma length_setitem_in d k v : k ∈ keys d → length (setitem d k v) = length d.
Proof.
  intros Hk. pose proof (keys_setitem_in d k v Hk) as Hl.
  apply (f_equal length) in Hl. unfold keys in Hl.
  by rewrite !length_fmap in Hl.
Qed.

End Facts.
End DictFacts.

(** * Properties of the plate tracker *)
Module TrackerFacts.
Import Dict Tracker TrackerSpec DictFacts.

(** ** Cycles without detections *)

Lemma age_hit pre_o pre_d k v n o d nid md mx :
  k ∉ keys pre_o → k ∉ keys pre_d →
  age (Build_PlateTracker nid (pre_o ++ (k, v) :: o) (pre_d ++ (k, n) :: d) md mx) k
  = Some (if bool_decide (n + 1 > md)%Z
          then Build_PlateTracker nid (pre_o ++ o) (pre_d ++ d) md mx
          else Build_PlateTracker nid (pre_o ++ (k, v) :: o)
                 (pre_d ++ (k, (n + 1)%Z) :: d) md mx).
Proof.
  intros Ho Hd. unfold age. cbn [disappeared set_disappeared objects max_disappeared].
  rewrite getitem_app_notin by done. cbn [getitem].
  rewrite decide_True by done. cbn [mbind option_bind].
  rewrite setitem_app_hit by done.
  rewrite getitem_app_notin by done. cbn [getitem].
  rewrite decide_True by done. cbn [mbind option_bind].
  case_bool_decide; [|done].
  unfold deregister. cbn [disappeared set_disappeared objects set_objects].
  rewrite !delitem_app_hit by done. done.
Qed.

Lemma for_each_age d : ∀ o pre_o pre_d nid md mx,
  keys o = keys d → keys pre_o = keys pre_d → NoDup (keys (pre_d ++ d)) →
  for_each age (keys d) (Build_PlateTracker nid (pre_o ++ o) (pre_d ++ d) md mx)
  = Some (Build_PlateTracker nid (pre_o ++ aged_objects md o d)
            (pre_d ++ aged_disappeared md d) md mx).
Proof.
  induction d as [|[k n] d IH]; intros o pre_o pre_d nid md mx Hk Hpre Hnd.
  - destruct o; [done|discriminate].
  - destruct o as [|[k' v] o]; [discriminate|].
    injection Hk as -> Hk.
    assert (Hfresh : (k ∉ keys pre_d) ∧ (k ∉ keys d) ∧ NoDup (keys (pre_d ++ d))).
    { unfold keys in *. rewrite fmap_app in Hnd. simpl in Hnd.
      apply NoDup_app in Hnd as (Hn1 & Hn2 & Hn3).
      apply NoDup_cons in Hn3 as [Hn3 Hn4].
      split; [intros Hin; apply (Hn2 _ Hin); left|]. split; [done|].
      rewrite fmap_app. apply NoDup_app. split; [done|].
      split; [|done]. intros x Hx Hx'. apply (Hn2 _ Hx). by right. }
    destruct Hfresh as (Hf1 & Hf2 & Hnd').
    change (keys ((k, n) :: d)) with (k :: keys d). cbn [for_each].
    rewrite age_hit by (by rewrite ?Hpre). cbn [mbind option_bind].
    cbn [aged_objects aged_disappeared]. case_bool_decide.
    + by apply IH.
    + specialize (IH o (pre_o ++ [(k, v)]) (pre_d ++ [(k, (n + 1)%Z)]) nid md mx).
      rewrite <-!(assoc_L (++)) in IH. apply IH; [done| |].
      * unfold keys in *. rewrite !fmap_app. by rewrite Hpre.
      * unfold keys in *. rewrite !fmap_app in *. simpl in *. done.
Qed.

Lemma keys_aged md o : ∀ d,
  keys o = keys d → keys (aged_objects md o d) = keys (aged_disappeared md d).
Proof.
  induction o as [|[k v] o IH]; intros [|[k' n] d] Hk; try done.
  injection Hk as -> Hk. simpl. case_bool_decide; simpl; [auto|].
  f_equal. by apply IH.
Qed.

Lemma keys_aged_sublist md d : sublist (keys (aged_disappeared md d)) (keys d).
Proof.
  induction d as [|[k n] d IH]; simpl; [done|].
  case_bool_decide; [by apply sublist_cons | by apply sublist_skip].
Qed.

Lemma getitem_aged_disappeared md d k :
  NoDup (keys d) →
  getitem (aged_disappeared md d) k =
  n ← getitem d k; if bool_decide (n + 1 > md)%Z then None else Some (n + 1)%Z.
Proof.
  induction d as [|[k' n] d IH]; intros Hnd; simpl; [done|].
  apply NoDup_cons in Hnd as [Hk' Hnd].
  case_decide; subst; simpl.
  - case_bool_decide; simpl.
    + apply getitem_None. intros Hin. apply Hk'.
      by eapply elem_of_sublist; [|apply keys_aged_sublist].
    + by rewrite decide_True.
  - case_bool_decide; simpl; [auto|]. rewrite decide_False by done. auto.
Qed.

Lemma getitem_aged_objects md o k : ∀ d,
  keys o = keys d → NoDup (keys d) →
  getitem (aged_objects md o d) k =
  match getitem d k with
  | Some n => if bool_decide (n + 1 > md)%Z then None else getitem o k
  | None => None
  end.
Proof.
  induction o as [|[k' v] o IH]; intros [|[k'' n] d] Hk Hnd; try done.
  injection Hk as -> Hk. apply NoDup_cons in Hnd as [Hk' Hnd].
  simpl. case_decide; subst; simpl.
  - case_bool_decide; simpl.
    + apply getitem_None. rewrite keys_aged by done. intros Hin. apply Hk'.
      by eapply elem_of_sublist; [|apply keys_aged_sublist].
    + by rewrite decide_True.
  - case_bool_decide; simpl; [auto|]. rewrite decide_False by done. auto.
Qed.

Lemma update_nil t :
  wf t →
  update t [] =
  let t' := Build_PlateTracker (next_object_id t)
              (aged_objects (max_disappeared t) (objects t) (disappeared t))
              (aged_disappeared (max_disappeared t) (disappeared t))
              (max_disappeared t) (max_distance t) in
  Some (t', objects t').
Proof.
  intros (Hnd & Hk & _). unfold update. rewrite decide_True by done.
  destruct t as [nid o d md mx]. cbn [objects disappeared] in *.
  cbn [max_disappeared max_distance next_object_id].
  pose proof (for_each_age d o [] [] nid md mx) as Hloop.
  cbn [app] in Hloop. rewrite Hloop; [done|done|done|by rewrite Hk].
Qed.

Lemma wf_singleton_example n : wf (Scenario.lone_entity n).
Proof.
  split; [apply NoDup_singleton|]. split; [done|].
  apply Forall_singleton. simpl. lia.
Qed.

(** C5: a cycle with an empty detection list succeeds on every well-formed
    tracker, registers nothing (no id appears and [next_object_id] is
    unchanged), and treats each entity by its incremented counter: when
    [frames_missing + 1] exceeds [max_disappeared] the entity is removed,
    otherwise (in particular when it equals [max_disappeared]) the entity
    stays, unchanged, with its counter increased by exactly one. *)
Theorem update_no_detections t :
  wf t →
  ∃ t', update t [] = Some (t', objects t') ∧
    next_object_id t' = next_object_id t ∧
    (∀ id, id ∈ keys (objects t') → id ∈ keys (objects t)) ∧
    (∀ id o n,
       getitem (objects t) id = Some o →
       getitem (disappeared t) id = Some n →
       ((n + 1 > max_disappeared t)%Z →
          getitem (objects t') id = None ∧
          getitem (disappeared t') id = None) ∧
       ((n + 1 ≤ max_disappeared t)%Z →
          getitem (objects t') id = Some o ∧
          getitem (disappeared t') id = Some (n + 1)%Z)).
Proof.
  intros Hwf. rewrite (update_nil t Hwf). cbn zeta.
  destruct Hwf as (Hnd & Hk & _). eexists. split; [reflexivity|].
  cbn [objects disappeared next_object_id].
  split; [done|]. split.
  - intros id Hin. rewrite keys_aged in Hin by done. rewrite <-Hk.
    by eapply elem_of_sublist; [|apply keys_aged_sublist].
  - intros id o n Ho Hn.
    rewrite getitem_aged_objects, getitem_aged_disappeared, Hn
      by (by rewrite ?Hk).
    cbn [mbind option_bind]. split; intros Hcmp.
    + by rewrite bool_decide_eq_true_2.
    + rewrite bool_decide_eq_false_2 by lia. done.
Qed.

Lemma update_no_detections_witness :
  (∃ t', update (Scenario.lone_entity 29) [] = Some (t', objects t') ∧
         getitem (disappeared t') 0 = Some 30%Z) ∧
  (∃ t', update (Scenario.lone_entity 30) [] = Some (t', objects t') ∧
         getitem (objects t') 0 = None).
Proof.
  split.
  - destruct (update_no_detections _ (wf_singleton_example 29))
      as (t' & Hu & _ & _ & Hall).
    exists t'. split; [exact Hu|].
    destruct (Hall 0 _ 29%Z eq_refl eq_refl) as [_ Hs].
    apply Hs. simpl. lia.
  - destruct (update_no_detections _ (wf_singleton_example 30))
      as (t' & Hu & _ & _ & Hall).
    exists t'. split; [exact Hu|].
    destruct (Hall 0 _ 30%Z eq_refl eq_refl) as [Hr _].
    apply Hr. simpl. lia.
Defined.

(** ** Registration on a tracker without entities *)

(** C9: on a tracker that holds no entity, [update] with the single
    detection of region (10, 10, 50, 20), text "AB1234" and confidence 0.9
    registers exactly one entity, under the next free id, with centroid
    (35, 20), identifier "AB1234" and [frames_missing] 0. *)
Theorem update_registers_single_detection t :
  objects t = [] →
  ∃ t', update t [Scenario.detection 10 10 50 20 "AB1234"]
          = Some (t', objects t') ∧
    objects t' = [(next_object_id t, Scenario.entity (35, 20)%Z "AB1234")] ∧
    getitem (disappeared t') (next_object_id t) = Some 0%Z ∧
    next_object_id t' = S (next_object_id t).
Proof.
  intros Ho. unfold update. rewrite decide_False by done.
  rewrite Ho. rewrite decide_True by done.
  eexists. split; [reflexivity|].
  cbn [objects disappeared next_object_id register]. rewrite Ho.
  split; [done|]. split; [apply getitem_setitem_eq | done].
Qed.

Lemma update_registers_single_detection_witness :
  ∃ t', update (init 30 100) [Scenario.detection 10 10 50 20 "AB1234"]
          = Some (t', objects t') ∧
    objects t' = [(0, Scenario.entity (35, 20)%Z "AB1234")] ∧
    getitem (disappeared t') 0 = Some 0%Z ∧
    next_object_id t' = 1.
Proof. exact (update_registers_single_detection (init 30 100) eq_refl). Defined.

(** ** [argmin], [argsort] and the distance matrix *)

Lemma argmin_from_bound r : ∀ best_i best i,
  argmin_from best_i best i r = best_i ∨
  i ≤ argmin_from best_i best i r < i + length r.
Proof.
  induction r as [|x r IH]; intros best_i best i; simpl; [by left|].
  destruct (x <? best)%Z.
  - destruct (IH i x (S i)) as [->|?]; right; lia.
  - destruct (IH best_i best (S i)) as [->|?]; [by left | right; lia].
Qed.

Lemma argmin_lt r : r ≠ [] → argmin r < length r.
Proof.
  destruct r as [|x r]; [done|]. intros _. simpl.
  destruct (argmin_from_bound r 0 x 1) as [->|?]; lia.
Qed.

Lemma insert_by_perm k i l : insert_by k i l ≡ₚ (k, i) :: l.
Proof.
  induction l as [|[k' i'] l IH]; simpl; [done|].
  destruct (k <=? k')%Z; [done|]. rewrite IH. apply Permutation_swap.
Qed.

Lemma argsort_perm a : argsort a ≡ₚ seq 0 (length a).
Proof.
  unfold argsort.
  assert (Hperm : ∀ l : list (Z * nat),
    foldr (λ ki acc, insert_by ki.1 ki.2 acc) [] l ≡ₚ l).
  { induction l as [|[k i] l IH]; simpl; [done|].
    rewrite insert_by_perm. by rewrite IH. }
  rewrite Hperm. rewrite snd_zip; [done|]. by rewrite length_seq.
Qed.

Lemma argsort_lt a row : row ∈ argsort a → row < length a.
Proof.
  rewrite argsort_perm, elem_of_seq. lia.
Qed.

Lemma D_at_distance_matrix ocs ics row col :
  D_at (distance_matrix ocs ics) row col =
  p ← ocs !! row; q ← ics !! col; Some (sqdist p q).
Proof.
  unfold D_at, distance_matrix. rewrite list_lookup_fmap.
  destruct (ocs !! row) as [p|]; simpl; [|done].
  rewrite list_lookup_fmap. by destruct (ics !! col).
Qed.

Lemma candidate_pairs_Some ocs ics :
  ics ≠ [] →
  ∃ pairs, candidate_pairs (distance_matrix ocs ics) = Some pairs ∧
    ∀ row col, (row, col) ∈ pairs → row < length ocs ∧ col < length ics.
Proof.
  intros Hne. unfold candidate_pairs.
  set (D := distance_matrix ocs ics).
  assert (HlenD : length D = length ocs) by apply length_fmap.
  destruct (mapM (λ row, (argmin <$> D) !! row) (argsort (row_min <$> D)))
    as [cols|] eqn:Hcols.
  - eexists. split; [reflexivity|]. intros row col Hin.
    apply mapM_Some in Hcols.
    apply list_elem_of_lookup in Hin as [i Hi].
    apply lookup_zip_with_Some in Hi as (r & c & [= <- <-] & Hr & Hc).
    pose proof (Forall2_lookup_lr _ _ _ _ _ _ Hcols Hr Hc) as Harg.
    simpl in Harg. rewrite list_lookup_fmap in Harg.
    unfold D, distance_matrix in Harg. rewrite list_lookup_fmap in Harg.
    destruct (ocs !! row) as [p|] eqn:Hp; [|done]. simpl in Harg.
    injection Harg as <-. split; [by eapply lookup_lt_Some|].
    rewrite <-(length_fmap (sqdist p) ics). apply argmin_lt.
    by destruct ics.
  - exfalso. apply eq_None_not_Some in Hcols. apply Hcols.
    apply mapM_is_Some. apply Forall_forall. intros row Hrow. simpl.
    apply argsort_lt in Hrow. rewrite length_fmap in Hrow.
    apply lookup_lt_is_Some. by rewrite length_fmap.
Qed.

(** ** The assignment loop *)

Lemma skips_false D mx ur uc rc :
  skips D mx ur uc rc = Some false ↔
  (rc.1 ∉ ur) ∧ (rc.2 ∉ uc) ∧
  ∃ d, D_at D rc.1 rc.2 = Some d ∧ exceeds d mx = false.
Proof.
  unfold skips. destruct (bool_decide (rc.1 ∈ ur)) eqn:Hr; simpl.
  { apply bool_decide_eq_true in Hr. split; [done | by intros [? _]]. }
  destruct (bool_decide (rc.2 ∈ uc)) eqn:Hc; simpl.
  { apply bool_decide_eq_true in Hc. split; [done | by intros (_ & ? & _)]. }
  apply bool_decide_eq_false in Hr, Hc.
  destruct (D_at D rc.1 rc.2) as [d|]; simpl.
  - split.
    + intros [= He]. eauto.
    + intros (_ & _ & d' & [= <-] & He). by rewrite He.
  - split; [done | by intros (_ & _ & d' & ? & _)].
Qed.

(** The matches are distinct in their rows and in their columns, avoid the
    rows and columns already used, and none exceeds [max_distance]. *)
Lemma matches_spec D mx pairs : ∀ ur uc,
  NoDup (matches D mx pairs ur uc).*1 ∧
  NoDup (matches D mx pairs ur uc).*2 ∧
  ∀ rc, rc ∈ matches D mx pairs ur uc →
    rc ∈ pairs ∧ (rc.1 ∉ ur) ∧ (rc.2 ∉ uc) ∧
    ∃ d, D_at D rc.1 rc.2 = Some d ∧ exceeds d mx = false.
Proof.
  induction pairs as [|rc0 pairs IH]; intros ur uc; simpl.
  { split; [apply NoDup_nil_2|]. split; [apply NoDup_nil_2|].
    by intros rc ?%elem_of_nil. }
  destruct (skips D mx ur uc rc0) as [[|]|] eqn:Hs.
  1,3: destruct (IH ur uc) as (Hr & Hc & Hall); repeat split; try done;
       try (by right; apply Hall); try (by apply Hall).
  apply skips_false in Hs as (Hr0 & Hc0 & Hd0).
  destruct (IH ({[rc0.1]} ∪ ur) ({[rc0.2]} ∪ uc)) as (Hr & Hc & Hall).
  split; [|split].
  - rewrite fmap_cons. apply NoDup_cons. split; [|done].
    intros Hin. apply list_elem_of_fmap in Hin as (rc & Heq & Hin).
    apply Hall in Hin as (_ & Hfresh & _). apply Hfresh. rewrite <-Heq.
    apply elem_of_union_l, elem_of_singleton. done.
  - rewrite fmap_cons. apply NoDup_cons. split; [|done].
    intros Hin. apply list_elem_of_fmap in Hin as (rc & Heq & Hin).
    apply Hall in Hin as (_ & _ & Hfresh & _). apply Hfresh. rewrite <-Heq.
    apply elem_of_union_l, elem_of_singleton. done.
  - intros rc Hin. apply elem_of_cons in Hin as [->|Hin].
    + split; [left|done].
    + apply Hall in Hin as (Hp & Hfr & Hfc & Hd).
      split; [by right|]. split; [|split; [|done]].
      * intros ?. apply Hfr. by apply elem_of_union_r.
      * intros ?. apply Hfc. by apply elem_of_union_r.
Qed.

Section Loop.
Variables (object_ids : list nat) (input_centroids : list (Z * Z))
          (plate_texts : list string).

(** What one committed pair does. *)
Lemma commit_Some t ur uc row col st' :
  commit object_ids input_centroids plate_texts (t, ur, uc) (row, col)
    = Some st' ↔
  ∃ object_id o c txt,
    object_ids !! row = Some object_id ∧
    getitem (objects t) object_id = Some o ∧
    input_centroids !! col = Some c ∧
    plate_texts !! col = Some txt ∧
    st' = (Build_PlateTracker (next_object_id t)
             (setitem (objects t) object_id
                {| centroid := c;
                   plate_text := if decide (txt = EmptyString)
                                 then plate_text o else txt;
                   track_history := deque_append 10 (track_history o) c;
                   confidence_history := confidence_history o |})
             (setitem (disappeared t) object_id 0%Z)
             (max_disappeared t) (max_distance t),
           {[row]} ∪ ur, {[col]} ∪ uc).
Proof.
  unfold commit. split.
  - destruct (object_ids !! row) as [object_id|]; [|done]. simpl.
    destruct (getitem (objects t) object_id) as [o|] eqn:Ho; [|done]. simpl.
    destruct (input_centroids !! col) as [c|]; [|done]. simpl.
    destruct (plate_texts !! col) as [txt|]; [|done]. simpl.
    intros [= <-]. by exists object_id, o, c, txt.
  - intros (object_id & o & c & txt & -> & Ho & -> & -> & ->). simpl.
    rewrite Ho. done.
Qed.

(** The loop executes the commit statements at exactly the pairs of
    [matches], and nothing else. *)
Lemma loop_commits D pairs : ∀ st st',
  for_each (match_body object_ids input_centroids plate_texts D) pairs st
    = Some st' →
  for_each (commit object_ids input_centroids plate_texts) (matches D (max_distance st.1.1) pairs st.1.2 st.2) st
    = Some st'.
Proof.
  induction pairs as [|rc pairs IH]; intros st st'; cbn [for_each matches];
    [done|].
  destruct (match_body object_ids input_centroids plate_texts D st rc)
    as [st1|] eqn:Hb; cbn [mbind option_bind]; [|done].
  intros Hrest. apply IH in Hrest. unfold match_body in Hb.
  destruct (skips D (max_distance st.1.1) st.1.2 st.2 rc) as [[|]|];
    cbn [mbind option_bind] in Hb; [by injection Hb as <- | | done].
  cbn [for_each]. rewrite Hb. cbn [mbind option_bind].
  destruct st as [[t ur] uc], rc as [row col].
  apply commit_Some in Hb as (id & o & c & txt & _ & _ & _ & _ & ->).
  exact Hrest.
Qed.

(** Committing pairs changes neither the thresholds nor the keys, and
    records the rows and columns in the two sets. *)
Lemma commit_loop_frame cs : ∀ t ur uc t' ur' uc',
  for_each (commit object_ids input_centroids plate_texts) cs (t, ur, uc) = Some (t', ur', uc') →
  next_object_id t' = next_object_id t ∧
  max_disappeared t' = max_disappeared t ∧
  max_distance t' = max_distance t ∧
  keys (objects t') = keys (objects t) ∧
  (keys (disappeared t) = keys (objects t) →
   keys (disappeared t') = keys (objects t')) ∧
  ur' = list_to_set cs.*1 ∪ ur ∧ uc' = list_to_set cs.*2 ∪ uc.
Proof.
  induction cs as [|[row col] cs IH]; intros t ur uc t' ur' uc'.
  - intros [= -> -> ->]. simpl. by rewrite !(left_id_L ∅ (∪)).
  - cbn [for_each].
    destruct (commit object_ids input_centroids plate_texts (t, ur, uc) (row, col)) as [st1|] eqn:Hc; [|done].
    cbn [mbind option_bind]. intros Hrest.
    apply commit_Some in Hc as (id & o & c & txt & Hid & Ho & _ & _ & ->).
    apply IH in Hrest as (Hn & Hmd & Hmx & Hk & Hkd & Hur & Huc).
    cbn [next_object_id max_disappeared max_distance objects disappeared] in *.
    assert (Hin : id ∈ keys (objects t)) by (apply getitem_is_Some; eauto).
    rewrite keys_setitem_in in Hk by done.
    repeat split; try done.
    + intros Hd. apply Hkd. rewrite keys_setitem_in by (by rewrite Hd).
      by rewrite keys_setitem_in.
    + rewrite Hur, fmap_cons, list_to_set_cons. cbn [fst].
      rewrite (assoc_L (∪)). f_equal. apply (comm_L (∪)).
    + rewrite Huc, fmap_cons, list_to_set_cons. cbn [snd].
      rewrite (assoc_L (∪)). f_equal. apply (comm_L (∪)).
Qed.

(** An entity whose row is not among the committed pairs is left as it
    was, counter included. *)
Lemma commit_loop_unmatched cs : ∀ t ur uc t' ur' uc' row object_id,
  for_each (commit object_ids input_centroids plate_texts) cs (t, ur, uc) = Some (t', ur', uc') →
  NoDup object_ids →
  object_ids !! row = Some object_id →
  row ∉ cs.*1 →
  getitem (objects t') object_id = getitem (objects t) object_id ∧
  getitem (disappeared t') object_id = getitem (disappeared t) object_id.
Proof.
  induction cs as [|[row0 col0] cs IH];
    intros t ur uc t' ur' uc' row object_id.
  - by intros [= -> -> ->].
  - cbn [for_each].
    destruct (commit object_ids input_centroids plate_texts (t, ur, uc) (row0, col0)) as [st1|] eqn:Hc; [|done].
    cbn [mbind option_bind]. intros Hrest Hnd Hrow Hnotin.
    apply commit_Some in Hc as (id0 & o & c & txt & Hid0 & _ & _ & _ & ->).
    rewrite fmap_cons in Hnotin. apply not_elem_of_cons in Hnotin as [Hne Hnotin].
    destruct (IH _ _ _ _ _ _ row object_id Hrest Hnd Hrow Hnotin) as [-> ->].
    cbn [objects disappeared].
    assert (id0 ≠ object_id).
    { intros ->. apply Hne. simpl. by eapply NoDup_lookup. }
    by rewrite !getitem_setitem_ne.
Qed.

(** An entity committed with a detection holds, after the loop, what that
    one commit wrote. *)
Lemma commit_loop_matched cs : ∀ t ur uc t' ur' uc' row col object_id o c txt,
  for_each (commit object_ids input_centroids plate_texts) cs (t, ur, uc) = Some (t', ur', uc') →
  NoDup object_ids → NoDup cs.*1 →
  (row, col) ∈ cs →
  object_ids !! row = Some object_id →
  getitem (objects t) object_id = Some o →
  input_centroids !! col = Some c →
  plate_texts !! col = Some txt →
  getitem (objects t') object_id =
    Some {| centroid := c;
            plate_text := if decide (txt = EmptyString) then plate_text o
                          else txt;
            track_history := deque_append 10 (track_history o) c;
            confidence_history := confidence_history o |} ∧
  getitem (disappeared t') object_id = Some 0%Z.
Proof.
  induction cs as [|[row0 col0] cs IH];
    intros t ur uc t' ur' uc' row col object_id o c txt.
  - by intros _ _ _ ?%elem_of_nil.
  - cbn [for_each].
    destruct (commit object_ids input_centroids plate_texts (t, ur, uc) (row0, col0)) as [st1|] eqn:Hc; [|done].
    cbn [mbind option_bind]. intros Hrest Hnd Hndr Hin Hrow Ho Hcol Htxt.
    apply commit_Some in Hc
      as (id0 & o0 & c0 & txt0 & Hid0 & Ho0 & Hc0 & Ht0 & ->).
    rewrite fmap_cons in Hndr. apply NoDup_cons in Hndr as [Hfresh Hndr].
    apply elem_of_cons in Hin as [[= -> ->]|Hin].
    + destruct (commit_loop_unmatched _ _ _ _ _ _ _ row0 object_id
                  Hrest Hnd Hrow Hfresh) as [-> ->].
      cbn [objects disappeared].
      assert (id0 = object_id) as -> by congruence.
      rewrite !getitem_setitem_eq. split; [|done].
      assert (o0 = o) as -> by congruence.
      assert (c0 = c) as -> by congruence.
      assert (txt0 = txt) as -> by congruence. done.
    + assert (row ≠ row0).
      { intros ->. apply Hfresh. simpl.
        apply list_elem_of_fmap. by exists (row0, col). }
      assert (id0 ≠ object_id).
      { intros ->. by eapply NoDup_lookup in Hid0; [|done|exact Hrow]. }
      eapply IH; try done. cbn [objects]. by rewrite getitem_setitem_ne.
Qed.

(** The loop does not raise when the pairs index existing rows and
    columns. *)
Lemma match_loop_total D pairs : ∀ t ur uc,
  keys (objects t) = object_ids →
  length plate_texts = length input_centroids →
  (∀ row col, (row, col) ∈ pairs →
     row < length object_ids ∧ col < length input_centroids ∧
     is_Some (D_at D row col)) →
  is_Some (for_each (match_body object_ids input_centroids plate_texts D)
             pairs (t, ur, uc)).
Proof.
  induction pairs as [|[row col] pairs IH]; intros t ur uc Hk Hlen Hall;
    cbn [for_each]; [done|].
  destruct (Hall row col) as (Hr & Hc & [d Hd]); [left|].
  assert (Hrest : ∀ r c, (r, c) ∈ pairs →
            r < length object_ids ∧ c < length input_centroids ∧
            is_Some (D_at D r c)) by (intros; apply Hall; by right).
  assert (Hstep : ∃ t1 ur1 uc1,
    match_body object_ids input_centroids plate_texts D (t, ur, uc) (row, col)
      = Some (t1, ur1, uc1) ∧ keys (objects t1) = object_ids).
  { unfold match_body, skips. cbn [fst snd]. rewrite Hd.
    destruct (bool_decide (row ∈ ur) || bool_decide (col ∈ uc));
      cbn [mbind option_bind]; [by exists t, ur, uc|].
    destruct (exceeds d (max_distance t)); [by exists t, ur, uc|].
    destruct (lookup_lt_is_Some_2 _ _ Hr) as [id Hid].
    destruct (lookup_lt_is_Some_2 _ _ Hc) as [c Hcc].
    rewrite <-Hlen in Hc. destruct (lookup_lt_is_Some_2 _ _ Hc) as [txt Htxt].
    assert (Hin : id ∈ keys (objects t)).
    { rewrite Hk. by eapply list_elem_of_lookup_2. }
    pose proof Hin as Hin'. apply getitem_is_Some in Hin' as [o Ho].
    do 3 eexists. split.
    - apply commit_Some. by exists id, o, c, txt.
    - cbn [objects]. by rewrite keys_setitem_in. }
  destruct Hstep as (t1 & ur1 & uc1 & -> & Hk1). cbn [mbind option_bind].
  by apply IH.
Qed.

End Loop.

(** ** Squared and Euclidean distances *)

Lemma sqdist_nonneg p q : (0 ≤ sqdist p q)%Z.
Proof.
  unfold sqdist. pose proof (Z.square_nonneg (p.1 - q.1)).
  pose proof (Z.square_nonneg (p.2 - q.2)). lia.
Qed.

(** The test [D[row, col] > self.max_distance] on the squared distance
    decides the comparison of the Euclidean distance with [max_distance]. *)
Lemma exceeds_euclidean p q m :
  exceeds (sqdist p q) m = false ↔ (euclidean p q <= IZR m)%R.
Proof.
  unfold exceeds, euclidean. pose proof (sqdist_nonneg p q) as Hd.
  set (d := sqdist p q) in *. rewrite orb_false_iff, !Z.ltb_ge.
  assert (0 <= IZR d)%R as HdR by (by apply IZR_le).
  split.
  - intros [Hm Hle]. apply IZR_le in Hm, Hle. rewrite mult_IZR in Hle.
    rewrite <-(sqrt_square (IZR m)) by done. by apply sqrt_le_1_alt.
  - intros Hle. pose proof (sqrt_pos (IZR d)) as Hpos.
    assert (0 <= IZR m)%R as Hm by lra.
    split; [by apply le_IZR|]. apply le_IZR. rewrite mult_IZR.
    rewrite <-(sqrt_sqrt (IZR d)) by done. by apply Rmult_le_compat.
Qed.

(** *** The range of the numbers

    What [in_range] gives: the centroid of a detection is below [2 ^ 21],
    and a squared distance between an entity and a detection is below
    [2 ^ 45], hence exact in binary64. *)
Lemma coord_spec z : coord z = true ↔ (- 2 ^ 20 < z < 2 ^ 20)%Z.
Proof. unfold coord. rewrite Z.ltb_lt. lia. Qed.

Lemma centroid_of_in_range d :
  coords_bbox d = true →
  (- 2 ^ 21 < (centroid_of d).1 < 2 ^ 21)%Z ∧
  (- 2 ^ 21 < (centroid_of d).2 < 2 ^ 21)%Z.
Proof.
  unfold coords_bbox, centroid_of. destruct (bbox d) as [[[x y] w] h].
  rewrite !andb_true_iff, !coord_spec. cbn [fst snd].
  intros [[[Hx Hy] Hw] Hh].
  pose proof (Z.quot_rem' (2 * x + w) 2) as Hq1.
  pose proof (Z.quot_rem' (2 * y + h) 2) as Hq2.
  pose proof (Z.rem_bound_abs (2 * x + w) 2) as Hr1.
  pose proof (Z.rem_bound_abs (2 * y + h) 2) as Hr2.
  lia.
Qed.

Lemma sqdist_in_range t detections o d :
  in_range t detections = true →
  o ∈ values (objects t) → d ∈ detections →
  (0 ≤ sqdist (centroid o) (centroid_of d) < 2 ^ 45)%Z.
Proof.
  unfold in_range. rewrite !andb_true_iff, !forallb_forall.
  intros [[_ Hobjs] Hdets] Ho Hd.
  apply list_elem_of_In, Hobjs in Ho. apply list_elem_of_In, Hdets in Hd.
  unfold coords_point in Ho. rewrite andb_true_iff, !coord_spec in Ho.
  apply centroid_of_in_range in Hd.
  split; [apply sqdist_nonneg|]. unfold sqdist.
  destruct (centroid o) as [px py], (centroid_of d) as [qx qy].
  cbn [fst snd] in *.
  assert (Hsq : ∀ u, (- 2 ^ 22 < u < 2 ^ 22 → u * u < 2 ^ 44)%Z)
    by (intros u Hu; nia).
  pose proof (Hsq (px - qx)%Z). pose proof (Hsq (py - qy)%Z). lia.
Qed.

(** The square roots of two different integers below [2 ^ 45] are more
    than [2 ^ -25] apart. *)
Lemma sqrt_separated a b :
  (0 ≤ a < b)%Z → (b < 2 ^ 45)%Z →
  (sqrt (IZR a) + / 2 ^ 25 < sqrt (IZR b))%R.
Proof.
  intros [Ha Hab] Hb.
  assert (HaR : (0 <= IZR a)%R) by (by apply IZR_le).
  assert (Hstep : (IZR a + 1 <= IZR b)%R).
  { rewrite <-plus_IZR. apply IZR_le. lia. }
  assert (Hroot : (sqrt (IZR a) < 2 ^ 23)%R).
  { rewrite <-(sqrt_pow2 (2 ^ 23)) by lra.
    apply sqrt_lt_1_alt. split; [done|].
    assert (a < 35184372088832)%Z as Hlt by lia.
    apply IZR_lt in Hlt. lra. }
  pose proof (sqrt_pos (IZR a)) as Hpos.
  pose proof (sqrt_sqrt (IZR a) HaR) as Hsq.
  apply Rsqr_incrst_0; [|lra|apply sqrt_pos].
  unfold Rsqr at 2. rewrite sqrt_sqrt by lra.
  unfold Rsqr.
  assert (He : (/ 2 ^ 25 = / 33554432)%R) by (f_equal; lra).
  rewrite He. clear He.
  assert (Hr : (2 ^ 23 = 8388608)%R) by lra. rewrite Hr in Hroot.
  nra.
Qed.

(** A squared distance that fails the test of line 68 has its square root
    more than [2 ^ -25] above [max_distance]. *)
Lemma exceeds_separated d2 m :
  (0 ≤ m)%Z → (d2 < 2 ^ 45)%Z → exceeds d2 m = true →
  (IZR m + / 2 ^ 25 < sqrt (IZR d2))%R.
Proof.
  unfold exceeds. intros Hm Hd [Hneg|Hlt]%orb_true_iff.
  - apply Z.ltb_lt in Hneg. lia.
  - apply Z.ltb_lt in Hlt.
    rewrite <-(sqrt_square (IZR m)) by (by apply IZR_le).
    rewrite <-mult_IZR. apply sqrt_separated; [|done].
    split; [apply Z.square_nonneg | done].
Qed.

(** ** Cycles with detections on a tracker holding entities *)

(** The entity the commit statements write for detection [d]. *)
Lemma commit_matched o d :
  {| centroid := centroid_of d;
     plate_text := if decide (text_of d = EmptyString) then plate_text o
                   else text_of d;
     track_history := deque_append 10 (track_history o) (centroid_of d);
     confidence_history := confidence_history o |} = matched o d.
Proof.
  unfold matched, text_of. destruct (text d) as [[|c txt]|]; cbn [default].
  - by rewrite decide_True.
  - by rewrite decide_False.
  - by rewrite decide_True.
Qed.

(** In this branch [update] returns, and what it does is to run the commit
    statements over [committed_pairs]. *)
Lemma update_matching t detections :
  wf t → detections ≠ [] → objects t ≠ [] →
  ∃ t' ur uc,
    update t detections = Some (t', objects t') ∧
    for_each (commit (keys (objects t)) (centroid_of <$> detections)
                (text_of <$> detections))
      (committed_pairs t detections) (t, ∅, ∅) = Some (t', ur, uc).
Proof.
  intros Hwf Hdet Hobj. unfold update, committed_pairs.
  rewrite decide_False by (by destruct detections).
  rewrite decide_False by (by destruct (objects t)).
  set (ics := centroid_of <$> detections).
  set (ocs := centroid <$> values (objects t)).
  destruct (candidate_pairs_Some ocs ics) as (pairs & -> & Hrange).
  { subst ics. by destruct detections. }
  cbn [mbind option_bind].
  assert (Hlen : length ocs = length (keys (objects t))).
  { subst ocs. unfold values, keys. by rewrite !length_fmap. }
  destruct (match_loop_total (keys (objects t)) ics (text_of <$> detections)
              (distance_matrix ocs ics) pairs t ∅ ∅) as [[[t' ur] uc] Hloop].
  { done. }
  { subst ics. by rewrite !length_fmap. }
  { intros row col Hin. destruct (Hrange row col Hin) as [Hr Hc].
    split; [by rewrite <-Hlen|]. split; [done|].
    rewrite D_at_distance_matrix.
    destruct (lookup_lt_is_Some_2 _ _ Hr) as [p ->].
    destruct (lookup_lt_is_Some_2 _ _ Hc) as [q ->]. by eexists. }
  rewrite Hloop. cbn [mbind option_bind fst snd].
  exists t', ur, uc. split; [done|].
  by apply loop_commits in Hloop.
Qed.

Lemma NoDup_fst_agree (l : list (nat * nat)) a b b' :
  NoDup l.*1 → (a, b) ∈ l → (a, b') ∈ l → b = b'.
Proof.
  induction l as [|[x y] l IH]; [by intros _ ?%elem_of_nil|].
  rewrite fmap_cons, NoDup_cons. intros [Hx Hnd] H1 H2.
  assert (Hnot : ∀ z, (x, z) ∉ l).
  { intros z Hz. apply Hx. apply list_elem_of_fmap. by exists (x, z). }
  apply elem_of_cons in H1 as [H1|H1]; apply elem_of_cons in H2 as [H2|H2].
  - congruence.
  - injection H1 as -> ->. by apply Hnot in H2.
  - injection H2 as -> ->. by apply Hnot in H1.
  - by apply IH.
Qed.

Lemma NoDup_snd_agree (l : list (nat * nat)) a a' b :
  NoDup l.*2 → (a, b) ∈ l → (a', b) ∈ l → a = a'.
Proof.
  induction l as [|[x y] l IH]; [by intros _ ?%elem_of_nil|].
  rewrite fmap_cons, NoDup_cons. intros [Hy Hnd] H1 H2.
  assert (Hnot : ∀ z, (z, y) ∉ l).
  { intros z Hz. apply Hy. apply list_elem_of_fmap. by exists (z, y). }
  apply elem_of_cons in H1 as [H1|H1]; apply elem_of_cons in H2 as [H2|H2].
  - congruence.
  - injection H1 as -> ->. by apply Hnot in H2.
  - injection H2 as -> ->. by apply Hnot in H1.
  - by apply IH.
Qed.

(** What a committed pair is: an existing row, an existing column, and a
    squared distance that passes the test of line 68. *)
Lemma committed_pairs_spec t detections row col :
  (row, col) ∈ committed_pairs t detections →
  ∃ o d, values (objects t) !! row = Some o ∧ detections !! col = Some d ∧
    exceeds (sqdist (centroid o) (centroid_of d)) (max_distance t) = false.
Proof.
  unfold committed_pairs.
  destruct (candidate_pairs _) as [pairs|]; [|by intros ?%elem_of_nil].
  intros Hin.
  destruct (matches_spec (distance_matrix (centroid <$> values (objects t))
               (centroid_of <$> detections)) (max_distance t) pairs ∅ ∅)
    as (_ & _ & Hall).
  apply Hall in Hin as (_ & _ & _ & d2 & Hd & Hex). cbn [fst snd] in Hd.
  rewrite D_at_distance_matrix, !list_lookup_fmap in Hd.
  destruct (values (objects t) !! row) as [o|]; [|done].
  destruct (detections !! col) as [d|]; [|done].
  injection Hd as <-. by exists o, d.
Qed.

Lemma committed_pairs_NoDup t detections :
  NoDup (committed_pairs t detections).*1 ∧
  NoDup (committed_pairs t detections).*2.
Proof.
  unfold committed_pairs. destruct (candidate_pairs _) as [pairs|].
  - destruct (matches_spec (distance_matrix (centroid <$> values (objects t))
                 (centroid_of <$> detections)) (max_distance t) pairs ∅ ∅)
      as (? & ? & _). done.
  - split; apply NoDup_nil_2.
Qed.

(** C6: in a cycle with detections on a tracker holding entities, the
    numbers being in the range [in_range] of image coordinates, [update]
    returns, and what it does is to run the commit statements at a list of
    pairs (row, column), its matches, whose rows and columns are the ones
    it records as used.  The matches are one-to-one: no row (entity)
    occurs in two of them and no column (detection) occurs in two of
    them; and the Euclidean distance between the centroids of every match
    is at most [max_distance]. *)
Theorem greedy_assignment_one_to_one t detections :
  wf t → in_range t detections = true →
  detections ≠ [] → objects t ≠ [] →
  ∃ t' committed used_row_indices used_col_indices,
    update t detections = Some (t', objects t') ∧
    for_each (commit (keys (objects t)) (centroid_of <$> detections)
                (text_of <$> detections))
      committed (t, ∅, ∅) = Some (t', used_row_indices, used_col_indices) ∧
    used_row_indices = list_to_set committed.*1 ∧
    used_col_indices = list_to_set committed.*2 ∧
    NoDup committed.*1 ∧ NoDup committed.*2 ∧
    (∀ row col row' col',
       (row, col) ∈ committed → (row', col') ∈ committed →
       (row = row' ↔ col = col')) ∧
    (∀ row col, (row, col) ∈ committed →
       ∃ o d, values (objects t) !! row = Some o ∧
              detections !! col = Some d ∧
              (euclidean (centroid o) (centroid_of d)
               <= IZR (max_distance t))%R).
Proof.
  intros Hwf _ Hdet Hobj.
  destruct (update_matching t detections Hwf Hdet Hobj)
    as (t' & ur & uc & Hup & Hloop).
  destruct (committed_pairs_NoDup t detections) as [Hr Hc].
  exists t', (committed_pairs t detections), ur, uc.
  split; [done|]. split; [done|].
  apply commit_loop_frame in Hloop as (_ & _ & _ & _ & _ & -> & ->).
  split; [by rewrite (right_id_L ∅ (∪))|].
  split; [by rewrite (right_id_L ∅ (∪))|].
  split; [done|]. split; [done|]. split.
  - intros row col row' col' H1 H2. split; intros ->.
    + by eapply NoDup_fst_agree.
    + by eapply NoDup_snd_agree.
  - intros row col Hin.
    apply committed_pairs_spec in Hin as (o & d & Ho & Hd & Hex).
    exists o, d. split; [done|]. split; [done|]. by apply exceeds_euclidean.
Qed.

Lemma wf_two_entities_example : wf Scenario.two_entities.
Proof.
  split; [|split; [done|]].
  - apply NoDup_cons. split; [|apply NoDup_singleton].
    intros Hin. apply list_elem_of_singleton in Hin. discriminate.
  - repeat apply Forall_cons_2; simpl; try lia. apply Forall_nil_2.
Qed.

Lemma greedy_assignment_one_to_one_witness :
  ∃ t' used_row_indices used_col_indices,
    update Scenario.two_entities Scenario.two_detections
      = Some (t', objects t') ∧
    for_each (commit (keys (objects Scenario.two_entities))
                (centroid_of <$> Scenario.two_detections)
                (text_of <$> Scenario.two_detections))
      [(1, 0); (0, 1)] (Scenario.two_entities, ∅, ∅)
      = Some (t', used_row_indices, used_col_indices).
Proof.
  destruct (greedy_assignment_one_to_one Scenario.two_entities
              Scenario.two_detections wf_two_entities_example)
    as (t' & committed & ur & uc & Hup & _);
    [reflexivity | discriminate | discriminate |].
  exists t'. injection Hup as <-. by do 2 eexists.
Defined.

(** C8: in a cycle with detections on a tracker holding entities, the
    numbers being in the range [in_range], every entity either is left
    exactly as it was or is matched with a detection of the cycle.  A
    matched entity ends the cycle with the detection's centroid, with that
    centroid appended to its track history and with [frames_missing] 0;
    its identifier is overwritten with the value of the detection's
    ['text'] when that value is a non-empty text, and is left as it was
    when the value is the empty text or the key is absent. *)
Theorem matched_entity_identifier_sticky t detections :
  wf t → in_range t detections = true →
  detections ≠ [] → objects t ≠ [] →
  ∃ t', update t detections = Some (t', objects t') ∧
    ∀ object_id o, getitem (objects t) object_id = Some o →
      (getitem (objects t') object_id = Some o ∧
       getitem (disappeared t') object_id
         = getitem (disappeared t) object_id) ∨
      (∃ d o', d ∈ detections ∧
         getitem (objects t') object_id = Some o' ∧
         getitem (disappeared t') object_id = Some 0%Z ∧
         centroid o' = centroid_of d ∧
         track_history o'
           = deque_append 10 (track_history o) (centroid_of d) ∧
         confidence_history o' = confidence_history o ∧
         (∀ txt, text d = Some txt → txt ≠ EmptyString →
                 plate_text o' = txt) ∧
         (text d = Some EmptyString ∨ text d = None →
          plate_text o' = plate_text o)).
Proof.
  intros Hwf _ Hdet Hobj.
  destruct (update_matching t detections Hwf Hdet Hobj)
    as (t' & ur & uc & Hup & Hloop).
  exists t'. split; [done|]. intros object_id o Ho.
  destruct (committed_pairs_NoDup t detections) as [Hr _].
  destruct Hwf as (Hnd & _ & _).
  assert (Hin : object_id ∈ keys (objects t))
    by (apply getitem_is_Some; eauto).
  apply list_elem_of_lookup in Hin as [row Hrow].
  destruct (decide (row ∈ (committed_pairs t detections).*1)) as [Hm|Hm].
  - right. apply list_elem_of_fmap in Hm as ([row' col] & -> & Hm).
    cbn [fst] in Hrow.
    pose proof Hm as Hspec.
    apply committed_pairs_spec in Hspec as (_ & d & _ & Hd & _).
    destruct (commit_loop_matched _ _ _ _ _ _ _ _ _ _ row' col object_id o
                (centroid_of d) (text_of d) Hloop Hnd Hr Hm Hrow Ho)
      as [Hobj' Hdis']; [by rewrite list_lookup_fmap, Hd ..|].
    rewrite commit_matched in Hobj'.
    exists d, (matched o d).
    split; [by eapply list_elem_of_lookup_2|].
    split; [done|]. split; [done|].
    split; [done|]. split; [done|]. split; [done|].
    unfold matched. cbn [plate_text]. split.
    + intros txt -> Hne. by destruct txt.
    + by intros [-> | ->].
  - left.
    destruct (commit_loop_unmatched _ _ _ _ _ _ _ _ _ _ row object_id
                Hloop Hnd Hrow Hm) as [-> ->].
    done.
Qed.

Lemma matched_entity_identifier_sticky_witness :
  ∃ t', update Scenario.two_entities Scenario.renaming_detections
          = Some (t', objects t') ∧
    (plate_text <$> getitem (objects Scenario.two_entities) 0)
      = Some "AB1234"%string ∧
    (plate_text <$> getitem (objects t') 0) = Some "XY0001"%string ∧
    (centroid <$> getitem (objects t') 0) = Some (37, 20)%Z ∧
    (plate_text <$> getitem (objects t') 1) = Some "CD5678"%string ∧
    (track_history <$> getitem (objects t') 1) = Some [(300, 200)%Z] ∧
    getitem (disappeared t') 1 = Some 0%Z.
Proof.
  destruct (matched_entity_identifier_sticky Scenario.two_entities
              Scenario.renaming_detections wf_two_entities_example)
    as (t' & Hup & _); [reflexivity | discriminate | discriminate |].
  exists t'. split; [exact Hup|].
  injection Hup as <-. repeat split; reflexivity.
Defined.

(** In a cycle with detections no entity is removed, and an entity that
    no detection was committed with is left exactly as it was: its
    [frames_missing] counter is not incremented. *)
Lemma unmatched_entity_untouched t detections :
  wf t → detections ≠ [] → objects t ≠ [] →
  ∃ t', update t detections = Some (t', objects t') ∧
    keys (objects t') = keys (objects t) ∧
    ∀ row object_id,
      keys (objects t) !! row = Some object_id →
      row ∉ (committed_pairs t detections).*1 →
      getitem (objects t') object_id = getitem (objects t) object_id ∧
      getitem (disappeared t') object_id = getitem (disappeared t) object_id.
Proof.
  intros Hwf Hdet Hobj.
  destruct (update_matching t detections Hwf Hdet Hobj)
    as (t' & ur & uc & Hup & Hloop).
  exists t'. split; [done|]. split.
  - by apply commit_loop_frame in Hloop as (_ & _ & _ & ? & _).
  - intros row object_id Hid Hnot. destruct Hwf as (Hnd & _ & _).
    by eapply commit_loop_unmatched.
Qed.

(** C2 fails on the code: an entity whose counter has reached
    [max_disappeared] (30) and that the only detection of the cycle is too
    far from to match is neither aged nor removed; the cycle leaves the
    tracker as it was, so the entity survives any number of such cycles. *)
Theorem stale_entity_survives_detections :
  let t := Scenario.lone_entity 30 in
  let cycle := λ t, default t (fst <$> update t [Scenario.far_detection]) in
  committed_pairs t [Scenario.far_detection] = [] ∧
  getitem (disappeared t) 0 = Some (max_disappeared t) ∧
  update t [Scenario.far_detection] = Some (t, objects t) ∧
  ∀ n, Nat.iter n cycle t = t ∧
       getitem (disappeared (Nat.iter n cycle t)) 0 = Some 30%Z ∧
       is_Some (getitem (objects (Nat.iter n cycle t)) 0).
Proof.
  cbn zeta. split; [reflexivity|]. split; [reflexivity|].
  assert (Hfix : update (Scenario.lone_entity 30) [Scenario.far_detection]
                 = Some (Scenario.lone_entity 30,
                         objects (Scenario.lone_entity 30)))
    by reflexivity.
  split; [exact Hfix|].
  assert (Hiter : ∀ n,
    Nat.iter n (λ t, default t (fst <$> update t [Scenario.far_detection]))
      (Scenario.lone_entity 30) = Scenario.lone_entity 30).
  { induction n as [|n IH]; [done|]. simpl. rewrite IH, Hfix. done. }
  intros n. rewrite Hiter. split; [done|]. split; [done|]. by eexists.
Qed.

(** ** Well-formedness is an invariant *)

Lemma wf_init md mx : wf (init md mx).
Proof.
  split; [apply NoDup_nil_2|]. split; [done|apply Forall_nil_2].
Qed.

Lemma wf_register t c txt : wf t → wf (register t c txt).
Proof.
  intros (Hnd & Hk & Hlt). unfold wf. cbn [objects disappeared next_object_id register].
  assert (Hfresh : next_object_id t ∉ keys (objects t)).
  { intros Hin. eapply Forall_forall in Hlt; [|exact Hin]. simpl in Hlt. lia. }
  rewrite !keys_setitem_notin by (by rewrite ?Hk). rewrite Hk.
  split; [|split; [done|]].
  - apply NoDup_app. split; [done|]. split; [|apply NoDup_singleton].
    intros x Hx Hx'. apply list_elem_of_singleton in Hx'. by subst.
  - apply Forall_app. split.
    + eapply Forall_impl; [exact Hlt|]. simpl. lia.
    + apply Forall_singleton. lia.
Qed.

Lemma for_each_register_wf (plate_texts : list string) l : ∀ t,
  wf t → (∀ ic : nat * (Z * Z), ic ∈ l → ic.1 < length plate_texts) →
  ∃ t', for_each (λ t ic, txt ← plate_texts !! ic.1; Some (register t ic.2 txt))
          l t = Some t' ∧ wf t'.
Proof.
  induction l as [|ic l IH]; intros t Hwf Hall; cbn [for_each]; [by exists t|].
  destruct (lookup_lt_is_Some_2 plate_texts ic.1) as [txt ->].
  { apply Hall. left. }
  cbn [mbind option_bind]. apply IH; [by apply wf_register|].
  intros; apply Hall; by right.
Qed.

Theorem wf_update t detections t' tracked :
  wf t → update t detections = Some (t', tracked) → wf t'.
Proof.
  intros Hwf. destruct detections as [|d detections].
  - rewrite (update_nil t Hwf). cbn zeta. intros [= <- _].
    destruct Hwf as (Hnd & Hk & Hlt). unfold wf.
    cbn [objects disappeared next_object_id].
    rewrite keys_aged by done.
    pose proof (keys_aged_sublist (max_disappeared t) (disappeared t)) as Hsub.
    rewrite Hk in Hsub.
    split; [by eapply sublist_NoDup|]. split; [done|].
    apply Forall_forall. intros k Hin.
    eapply Forall_forall in Hlt; [exact Hlt|]. by eapply elem_of_sublist.
  - destruct (decide (objects t = [])) as [Hempty|Hne].
    + unfold update. rewrite decide_False by done.
      rewrite Hempty, decide_True by done.
      destruct (for_each_register_wf (text_of <$> d :: detections)
                  (enumerate (centroid_of <$> d :: detections)) t Hwf)
        as (t1 & -> & Hwf1).
      { intros ic Hin. unfold enumerate in Hin.
        apply list_elem_of_lookup in Hin as [i Hi].
        apply lookup_zip_with_Some in Hi as (j & c & -> & Hj & _).
        apply lookup_seq in Hj as [-> Hj]. simpl.
        by rewrite !length_fmap in *. }
      by intros [= <- _].
    + destruct (update_matching t (d :: detections) Hwf) as
        (t1 & ur & uc & -> & Hloop); [done|done|].
      intros [= <- _].
      apply commit_loop_frame in Hloop as (Hn & _ & _ & Hk' & Hkd & _).
      destruct Hwf as (Hnd & Hk & Hlt). unfold wf.
      rewrite Hk', Hn. split; [done|]. split; [|done].
      rewrite <-Hk'. by apply Hkd.
Qed.

End TrackerFacts.

(** * Properties of the toll decision *)
Module TollFacts.
Import Toll.

Lemma verify_log_violation s ty p txt :
  verify_authorized_plate (log_violation s ty p) txt = verify_authorized_plate s txt.
Proof. unfold log_violation. by destruct (violation_log s). Qed.

Lemma current_session_log_violation s ty p :
  current_session (log_violation s ty p) = current_session s.
Proof. unfold log_violation. by destruct (violation_log s). Qed.

Lemma violation_log_update_session_state s plates st :
  violation_log (update_session_state s plates st) = violation_log s.
Proof. done. Qed.

Lemma authorized_plate_found_true s plates :
  authorized_plate_found s plates = true ↔
  ∃ p, p ∈ plates ∧ verify_authorized_plate s (text p) = true.
Proof.
  induction plates as [|q plates IH]; simpl.
  - split; [done|]. intros (p & Hp & _). by apply elem_of_nil in Hp.
  - destruct (verify_authorized_plate s (text q)) eqn:Hq.
    + split; [|done]. intros _. exists q. split; [left|done].
    + rewrite IH. split.
      * intros (p & Hp & Hv). exists p. split; [by right|done].
      * intros (p & Hp & Hv). apply elem_of_cons in Hp as [->|Hp]; [congruence|].
        by exists p.
Qed.

Lemma authorized_plate_found_false s plates :
  authorized_plate_found s plates = false ↔
  ∀ p, p ∈ plates → verify_authorized_plate s (text p) = false.
Proof.
  rewrite <-not_true_iff_false, authorized_plate_found_true. split.
  - intros Hn p Hp. apply not_true_iff_false. intros Hv. apply Hn. eauto.
  - intros Hall (p & Hp & Hv). rewrite (Hall p Hp) in Hv. done.
Qed.

Lemma verify_unreadable s txt :
  authorized_plates_db s = Unreadable → verify_authorized_plate s txt = false.
Proof. unfold verify_authorized_plate. by intros ->. Qed.

Lemma process_frame_detected s plates st :
  process_frame s (Some (plates, st)) =
  ((make_toll_decision s plates st).1,
   update_session_state (make_toll_decision s plates st).2 plates st).
Proof. unfold process_frame. by destruct (make_toll_decision s plates st). Qed.

(** The session after a cycle, field by field. *)
Lemma session_after_update s plates st :
  driver_safe (current_session (update_session_state s plates st))
    = negb (get_flag (drowsy st) || get_flag (yawning st)) ∧
  violation_count (current_session (update_session_state s plates st))
    = (if get_flag (drowsy st) || get_flag (yawning st)
       then violation_count (current_session s) + 1
       else violation_count (current_session s))%Z ∧
  is_authorized (current_session (update_session_state s plates st)) =
    match plates with
    | p :: _ => verify_authorized_plate s (text p)
    | [] => is_authorized (current_session s)
    end.
Proof.
  destruct plates; simpl;
    destruct (get_flag (drowsy st) || get_flag (yawning st)); done.
Qed.

Lemma current_session_make_toll_decision s plates st :
  current_session (make_toll_decision s plates st).2 = current_session s.
Proof.
  unfold make_toll_decision. destruct plates; [done|].
  destruct (negb _); [apply current_session_log_violation|].
  destruct (_ || _); [apply current_session_log_violation|done].
Qed.

Lemma verify_make_toll_decision s plates st txt :
  verify_authorized_plate (make_toll_decision s plates st).2 txt
  = verify_authorized_plate s txt.
Proof.
  unfold make_toll_decision. destruct plates; [done|].
  destruct (negb _); [apply verify_log_violation|].
  destruct (_ || _); [apply verify_log_violation|done].
Qed.

Open Scope Z_scope.

(** C1, as stated, fails.  An unauthorized plate alone in the frame, with
    an alert driver, is denied and logged, but [violation_count] stays at
    0.  When a later plate of the same frame is authorized, the
    unauthorized first plate is not denied at all and nothing is logged.
    And when the violation log cannot be opened, the denial appends no
    record. *)
Lemma unauthorized_plate_not_counted :
  let r := process_frame Scenario.booth
             (Some ([Scenario.plate "ZZ9999"], Scenario.alert)) in
  let r2 := process_frame Scenario.booth
              (Some ([Scenario.plate "ZZ9999"; Scenario.plate "AB1234"],
                     Scenario.alert)) in
  let r3 := process_frame Scenario.booth_log_unwritable
              (Some ([Scenario.plate "ZZ9999"], Scenario.alert)) in
  verify_authorized_plate Scenario.booth "ZZ9999" = false ∧
  r.1 = ACCESS_DENIED ∧
  violation_count (current_session Scenario.booth) = 0 ∧
  violation_count (current_session r.2) = 0 ∧
  violation_count (current_session r.2)
    ≠ violation_count (current_session Scenario.booth) + 1 ∧
  r2.1 = ACCESS_GRANTED ∧
  violation_log r2.2 = violation_log Scenario.booth ∧
  r3.1 = ACCESS_DENIED ∧
  violation_log r3.2 = violation_log Scenario.booth_log_unwritable.
Proof. vm_compute. repeat split; done. Qed.

(** With no authorized plate in a non-empty list the decision is
    [ACCESS_DENIED] and the first plate is logged. *)
Lemma make_toll_decision_denied s plate0 rest st :
  authorized_plate_found s (plate0 :: rest) = false →
  make_toll_decision s (plate0 :: rest) st =
  (ACCESS_DENIED, log_violation s UNAUTHORIZED_PLATE (text plate0)).
Proof. intros Hnone. unfold make_toll_decision. by rewrite Hnone. Qed.

Lemma violation_log_log_violation s ty txt :
  violation_log (log_violation s ty txt) =
  (λ entries, entries ++
     [{| timestamp := clock s; violation_type := ty;
         plate := txt; session_id := session_ident s |}])
  <$> violation_log s.
Proof.
  unfold log_violation. by destruct (violation_log s) eqn:Hlog; [|rewrite Hlog].
Qed.

(** C1, amended: in a cycle with at least one plate none of which is
    authorized, the decision is [ACCESS_DENIED] whatever the drowsiness
    status, exactly one [UNAUTHORIZED_PLATE] entry naming the first plate is
    appended to the violation log (none when the log cannot be written),
    the session's [is_authorized] becomes false, and [violation_count] is
    not moved by the authorization failure: it grows by one exactly when the
    status is drowsy or yawning. *)
Theorem unauthorized_cycle s plate0 rest st :
  authorized_plate_found s (plate0 :: rest) = false →
  let r := process_frame s (Some (plate0 :: rest, st)) in
  r.1 = ACCESS_DENIED ∧
  (∀ st', (process_frame s (Some (plate0 :: rest, st'))).1 = ACCESS_DENIED) ∧
  violation_log r.2 =
    (λ entries, entries ++
       [{| timestamp := clock s; violation_type := UNAUTHORIZED_PLATE;
           plate := text plate0; session_id := session_ident s |}])
    <$> violation_log s ∧
  is_authorized (current_session r.2) = false ∧
  violation_count (current_session r.2) =
    (if get_flag (drowsy st) || get_flag (yawning st)
     then violation_count (current_session s) + 1
     else violation_count (current_session s)).
Proof.
  intros Hnone. cbn zeta.
  assert (H0 : verify_authorized_plate s (text plate0) = false).
  { apply (proj1 (authorized_plate_found_false _ _) Hnone). left. }
  split; [by rewrite process_frame_detected, make_toll_decision_denied|].
  split.
  { intros st'. by rewrite process_frame_detected, make_toll_decision_denied. }
  rewrite process_frame_detected, make_toll_decision_denied by done.
  cbn [fst snd]. rewrite violation_log_update_session_state.
  split; [apply violation_log_log_violation|].
  pose proof (session_after_update
    (log_violation s UNAUTHORIZED_PLATE (text plate0)) (plate0 :: rest) st)
    as (_ & Hcount & Hauth).
  rewrite Hauth, Hcount, verify_log_violation, current_session_log_violation.
  done.
Qed.

Lemma unauthorized_cycle_witness :
  let r := process_frame Scenario.booth
             (Some ([Scenario.plate "ZZ9999"], Scenario.sleepy)) in
  r.1 = ACCESS_DENIED ∧ violation_count (current_session r.2) = 1.
Proof.
  pose proof (unauthorized_cycle Scenario.booth (Scenario.plate "ZZ9999") []
                Scenario.sleepy eq_refl) as (Hd & _ & _ & _ & Hc).
  split; [exact Hd | exact Hc].
Defined.

(** C3, as stated, fails: with an unreadable allow-list the decision is
    [ACCESS_DENIED], not [ERROR], and a violation entry is written. *)
Lemma unreadable_store_denies :
  let r := process_frame Scenario.booth_unreadable
             (Some ([Scenario.plate "AB1234"], Scenario.alert)) in
  r.1 = ACCESS_DENIED ∧ r.1 ≠ ERROR ∧
  violation_log Scenario.booth_unreadable = Some [] ∧
  violation_log r.2 =
    Some [{| timestamp := 1000; violation_type := UNAUTHORIZED_PLATE;
             plate := "AB1234"; session_id := 7 |}].
Proof. vm_compute. repeat split; done. Qed.

(** C3, amended: when reading the allow-list raises, the lookup answers
    "not authorized" for every identifier instead of failing; a cycle with
    at least one plate is then decided [ACCESS_DENIED] (never [ERROR]) and
    one [UNAUTHORIZED_PLATE] entry is appended to the violation log (none
    when the log cannot be written), a cycle without plates is decided
    [NO_PLATE_DETECTED] and logs nothing, and [violation_count] changes only
    through the drowsiness status. *)
Theorem unreadable_store_cycle s plates st :
  authorized_plates_db s = Unreadable →
  let r := process_frame s (Some (plates, st)) in
  (∀ txt, verify_authorized_plate s txt = false) ∧
  r.1 = (match plates with [] => NO_PLATE_DETECTED | _ => ACCESS_DENIED end) ∧
  r.1 ≠ ERROR ∧
  violation_log r.2 =
    match plates with
    | [] => violation_log s
    | plate0 :: _ =>
        (λ entries, entries ++
           [{| timestamp := clock s; violation_type := UNAUTHORIZED_PLATE;
               plate := text plate0; session_id := session_ident s |}])
        <$> violation_log s
    end ∧
  violation_count (current_session r.2) =
    (if get_flag (drowsy st) || get_flag (yawning st)
     then violation_count (current_session s) + 1
     else violation_count (current_session s)).
Proof.
  intros Hdb. cbn zeta.
  assert (Hv : ∀ txt, verify_authorized_plate s txt = false)
    by (intros; by apply verify_unreadable).
  split; [done|]. destruct plates as [|plate0 rest].
  - simpl. repeat split; try done.
    by destruct (get_flag (drowsy st) || get_flag (yawning st)).
  - assert (Hnone : authorized_plate_found s (plate0 :: rest) = false).
    { apply authorized_plate_found_false. intros; apply Hv. }
    rewrite process_frame_detected, make_toll_decision_denied by done.
    cbn [fst snd]. rewrite violation_log_update_session_state.
    split; [done|]. split; [done|].
    split; [apply violation_log_log_violation|].
    pose proof (session_after_update
      (log_violation s UNAUTHORIZED_PLATE (text plate0)) (plate0 :: rest) st)
      as (_ & Hcount & _).
    by rewrite Hcount, current_session_log_violation.
Qed.

Lemma unreadable_store_cycle_witness :
  (process_frame Scenario.booth_unreadable
     (Some ([Scenario.plate "AB1234"], Scenario.alert))).1 = ACCESS_DENIED.
Proof.
  exact (proj1 (proj2 (unreadable_store_cycle Scenario.booth_unreadable
    [Scenario.plate "AB1234"] Scenario.alert eq_refl))).
Defined.

(** C4, as stated, fails: with the same unauthorized first plate, the
    decision changes with the identifier of the second plate. *)
Lemma decision_depends_on_other_plates :
  verify_authorized_plate Scenario.booth "ZZ9999" = false ∧
  (process_frame Scenario.booth
     (Some ([Scenario.plate "ZZ9999"; Scenario.plate "AB1234"], Scenario.alert))).1
    = ACCESS_GRANTED ∧
  (process_frame Scenario.booth
     (Some ([Scenario.plate "ZZ9999"; Scenario.plate "QQ0000"], Scenario.alert))).1
    = ACCESS_DENIED.
Proof. vm_compute. repeat split; done. Qed.

(** C4, amended: in a cycle with at least one plate the decision is
    determined by whether any plate of the list is authorized (together
    with the drowsiness status once one is); it follows the first plate
    alone when that plate is authorized or is the only one.  What does
    come from the first plate only is the session's [plate_text] and
    [is_authorized]. *)
Theorem decision_by_any_authorized_plate s plate0 rest st :
  let plates := plate0 :: rest in
  let r := process_frame s (Some (plates, st)) in
  r.1 = (if authorized_plate_found s plates
         then if get_flag (drowsy st) || get_flag (yawning st)
              then SAFETY_VIOLATION else ACCESS_GRANTED
         else ACCESS_DENIED) ∧
  (authorized_plate_found s plates = true ↔
     ∃ p, p ∈ plates ∧ verify_authorized_plate s (text p) = true) ∧
  (verify_authorized_plate s (text plate0) = true →
     ∀ rest', (process_frame s (Some (plate0 :: rest', st))).1 = r.1) ∧
  (rest = [] →
     authorized_plate_found s plates = verify_authorized_plate s (text plate0)) ∧
  plate_text (current_session r.2) = text plate0 ∧
  is_authorized (current_session r.2) = verify_authorized_plate s (text plate0).
Proof.
  cbn zeta.
  assert (Hdec : ∀ l, (process_frame s (Some (plate0 :: l, st))).1 =
    (if authorized_plate_found s (plate0 :: l)
     then if get_flag (drowsy st) || get_flag (yawning st)
          then SAFETY_VIOLATION else ACCESS_GRANTED
     else ACCESS_DENIED)).
  { intros l. rewrite process_frame_detected. unfold make_toll_decision.
    destruct (authorized_plate_found s (plate0 :: l)); simpl; [|done].
    by destruct (get_flag (drowsy st) || get_flag (yawning st)). }
  split; [apply Hdec|]. split; [apply authorized_plate_found_true|].
  split.
  { intros Hv rest'. rewrite !Hdec. simpl. by rewrite Hv. }
  split.
  { intros ->. simpl. by destruct (verify_authorized_plate s (text plate0)). }
  rewrite process_frame_detected. cbn [snd].
  pose proof (session_after_update (make_toll_decision s (plate0 :: rest) st).2
                (plate0 :: rest) st) as (_ & _ & Hauth).
  split; [done|]. rewrite Hauth. apply verify_make_toll_decision.
Qed.

(** C7: with an authorized first plate and a status that is neither drowsy
    nor yawning, the decision is [ACCESS_GRANTED], the session's
    [driver_safe] is set to true and [violation_count] is unchanged (and
    nothing is written to the violation log). *)
Theorem authorized_safe_cycle s plate0 rest st :
  verify_authorized_plate s (text plate0) = true →
  get_flag (drowsy st) = false →
  get_flag (yawning st) = false →
  let r := process_frame s (Some (plate0 :: rest, st)) in
  r.1 = ACCESS_GRANTED ∧
  driver_safe (current_session r.2) = true ∧
  violation_count (current_session r.2) = violation_count (current_session s) ∧
  violation_log r.2 = violation_log s.
Proof.
  intros Hv Hd Hy. cbn zeta. rewrite process_frame_detected.
  assert (Hdec : make_toll_decision s (plate0 :: rest) st = (ACCESS_GRANTED, s)).
  { unfold make_toll_decision. simpl. by rewrite Hv, Hd, Hy. }
  rewrite Hdec. cbn [fst snd]. split; [done|].
  pose proof (session_after_update s (plate0 :: rest) st) as (Hsafe & Hcount & _).
  rewrite Hd, Hy in Hsafe, Hcount. done.
Qed.

Lemma authorized_safe_cycle_witness :
  let r := process_frame Scenario.booth
             (Some ([Scenario.plate "Ab1234"; Scenario.plate "ZZ9999"],
                    Scenario.alert)) in
  r.1 = ACCESS_GRANTED ∧
  driver_safe (current_session r.2) = true ∧
  violation_count (current_session r.2) = 0 ∧
  violation_log r.2 = Some [].
Proof.
  apply (authorized_safe_cycle Scenario.booth (Scenario.plate "Ab1234")
           [Scenario.plate "ZZ9999"] Scenario.alert); reflexivity.
Defined.

(** C10: whenever the status is drowsy or yawning, the session update adds
    exactly one to [violation_count] and sets [driver_safe] to false,
    whatever the plates and whatever their authorization; this holds in
    particular in cycles decided [NO_PLATE_DETECTED] (no plate) and
    [ACCESS_DENIED] (no authorized plate). *)
Theorem unsafe_driver_always_counted s plates st :
  get_flag (drowsy st) || get_flag (yawning st) = true →
  let s' := update_session_state s plates st in
  let r := process_frame s (Some (plates, st)) in
  violation_count (current_session s') = violation_count (current_session s) + 1 ∧
  driver_safe (current_session s') = false ∧
  violation_count (current_session r.2) = violation_count (current_session s) + 1 ∧
  driver_safe (current_session r.2) = false ∧
  (plates = [] → r.1 = NO_PLATE_DETECTED) ∧
  (plates ≠ [] → authorized_plate_found s plates = false → r.1 = ACCESS_DENIED).
Proof.
  intros Hu. cbn zeta.
  pose proof (session_after_update s plates st) as (Hsafe & Hcount & _).
  rewrite Hu in Hsafe, Hcount.
  split; [done|]. split; [done|].
  rewrite process_frame_detected. cbn [fst snd].
  pose proof (session_after_update (make_toll_decision s plates st).2 plates st)
    as (Hsafe' & Hcount' & _).
  rewrite Hu, current_session_make_toll_decision in Hcount'. rewrite Hu in Hsafe'.
  split; [done|]. split; [done|]. split.
  - by intros ->.
  - intros Hne Hnone. destruct plates as [|plate0 rest]; [done|].
    unfold make_toll_decision. by rewrite Hnone.
Qed.

Lemma unsafe_driver_always_counted_witness :
  let r := process_frame Scenario.booth (Some ([], Scenario.sleepy)) in
  r.1 = NO_PLATE_DETECTED ∧
  violation_count (current_session r.2) = 1 ∧
  driver_safe (current_session r.2) = false.
Proof.
  pose proof (unsafe_driver_always_counted Scenario.booth [] Scenario.sleepy
                eq_refl) as (_ & _ & Hc & Hs & Hd & _).
  split; [exact (Hd eq_refl)|]. split; [exact Hc | exact Hs].
Defined.

End TollFacts.

(** * Properties of the plate recognizer *)
Module RecognizerFacts.
Import Toll Recognizer.

(** ** Characters *)

Ltac all_ascii c :=
  destruct c as [[] [] [] [] [] [] [] []]; vm_compute; try reflexivity;
  try discriminate; try (intros; discriminate); try (intros; reflexivity).

Lemma correct_not_corrected c :
  corrected_letter (get_char corrections c c) = false.
Proof. all_ascii c. Qed.

Lemma correct_plate_char c :
  is_plate_char c = true → is_plate_char (get_char corrections c c) = true.
Proof. all_ascii c. Qed.

Lemma correct_fixed c :
  corrected_letter c = false → get_char corrections c c = c.
Proof. all_ascii c. Qed.

Lemma upper_plate_char c : is_plate_char c = true → upper_ascii c = c.
Proof. all_ascii c. Qed.

Lemma capital_not_digit c : is_capital c = true → is_digit c = false.
Proof. all_ascii c. Qed.

Lemma corrected_letter_capital c :
  corrected_letter c = true → is_capital c = true.
Proof. all_ascii c. Qed.

(** ** Strings *)

Lemma string_forall_filter f s : string_forall f (string_filter f s) = true.
Proof.
  induction s as [|c s IH]; simpl; [done|].
  destruct (f c) eqn:Hc; simpl; [by rewrite Hc|done].
Qed.

Lemma string_filter_id f s :
  string_forall f s = true → string_filter f s = s.
Proof.
  induction s as [|c s IH]; simpl; [done|].
  intros [Hc Hs]%andb_true_iff. rewrite Hc. by rewrite IH.
Qed.

Lemma string_map_id (f : ascii → ascii) (P : ascii → bool) s :
  (∀ c, P c = true → f c = c) → string_forall P s = true → string_map f s = s.
Proof.
  intros Hf. induction s as [|c s IH]; simpl; [done|].
  intros [Hc Hs]%andb_true_iff. by rewrite Hf, IH.
Qed.

Lemma string_forall_map (f : ascii → ascii) (P Q : ascii → bool) s :
  (∀ c, P c = true → Q (f c) = true) →
  string_forall P s = true → string_forall Q (string_map f s) = true.
Proof.
  intros Hf. induction s as [|c s IH]; simpl; [done|].
  intros [Hc Hs]%andb_true_iff. by rewrite Hf, IH.
Qed.

Lemma string_forall_map_all (f : ascii → ascii) (Q : ascii → bool) s :
  (∀ c, Q (f c) = true) → string_forall Q (string_map f s) = true.
Proof.
  intros Hf. induction s as [|c s IH]; simpl; [done|]. by rewrite Hf, IH.
Qed.

Lemma string_forall_impl (P Q : ascii → bool) s :
  (∀ c, P c = true → Q c = true) →
  string_forall P s = true → string_forall Q s = true.
Proof.
  intros Hf. induction s as [|c s IH]; simpl; [done|].
  intros [Hc Hs]%andb_true_iff. by rewrite Hf, IH.
Qed.

Lemma string_exists_forall_neg (P Q : ascii → bool) s :
  (∀ c, Q c = true → P c = false) →
  string_forall Q s = true → string_exists P s = false.
Proof.
  intros Hf. induction s as [|c s IH]; simpl; [done|].
  intros [Hc Hs]%andb_true_iff. by rewrite Hf, IH.
Qed.

Lemma length_string_map f s : String.length (string_map f s) = String.length s.
Proof. induction s as [|c s IH]; simpl; [done|]. by rewrite IH. Qed.

Lemma upper_id s : string_forall is_plate_char s = true → upper s = s.
Proof.
  induction s as [|c s IH]; simpl; [done|].
  intros [Hc Hs]%andb_true_iff. by rewrite upper_plate_char, IH.
Qed.

(** ** [clean_plate_text] *)

(** X1: the cleaned text consists of capital letters and digits only. *)
Theorem clean_plate_text_alphabet text :
  string_forall is_plate_char (clean_plate_text text) = true.
Proof.
  unfold clean_plate_text.
  pose proof (string_forall_filter is_plate_char (upper text)) as Hf.
  destruct (_ && _); [|done].
  eapply string_forall_map; [|exact Hf]. apply correct_plate_char.
Qed.

(** When the cleaned text has between 4 and 10 characters, the corrections
    were applied to all of it. *)
Lemma clean_plate_text_corrected text :
  4 ≤ String.length (clean_plate_text text) ≤ 10 →
  string_forall (λ c, negb (corrected_letter c)) (clean_plate_text text) = true.
Proof.
  unfold clean_plate_text.
  set (cleaned := string_filter is_plate_char (upper text)).
  destruct ((4 <=? String.length cleaned) && (String.length cleaned <=? 10))
    eqn:Hrange.
  - intros _. apply string_forall_map_all. intros c.
    by rewrite correct_not_corrected.
  - intros [H4 H10]. apply andb_false_iff in Hrange as [H|H].
    + apply Nat.leb_gt in H. lia.
    + apply Nat.leb_gt in H. lia.
Qed.

(** X2: cleaning a cleaned text changes nothing. *)
Theorem clean_plate_text_idempotent text :
  clean_plate_text (clean_plate_text text) = clean_plate_text text.
Proof.
  pose proof (clean_plate_text_alphabet text) as Halpha.
  pose proof (clean_plate_text_corrected text) as Hcorr.
  set (r := clean_plate_text text) in *. unfold clean_plate_text at 1.
  rewrite (upper_id r Halpha), (string_filter_id _ r Halpha).
  destruct ((4 <=? String.length r) && (String.length r <=? 10)) eqn:Hrange;
    [|done].
  apply andb_true_iff in Hrange as [H4%Nat.leb_le H10%Nat.leb_le].
  eapply string_map_id; [|apply Hcorr; lia].
  intros c Hc. apply correct_fixed. by apply negb_true_iff in Hc.
Qed.

(** X3: a cleaned text of 4 to 10 characters holds none of the letters
    O, I, L, Z, S, B, G: cleaning never yields a text of that length in
    which one of them occurs. *)
Theorem clean_plate_text_never_corrected_letter text target :
  4 ≤ String.length target ≤ 10 →
  string_exists corrected_letter target = true →
  clean_plate_text text ≠ target.
Proof.
  intros Hlen Hex Heq. pose proof (clean_plate_text_corrected text) as Hcorr.
  rewrite Heq in Hcorr. specialize (Hcorr Hlen).
  rewrite (string_exists_forall_neg corrected_letter
             (λ c, negb (corrected_letter c)) target) in Hex; [done| |done].
  intros c Hc. by apply negb_true_iff in Hc.
Qed.

Lemma clean_plate_text_never_corrected_letter_witness :
  clean_plate_text "MH01AB1234" ≠ "MH01AB1234"%string.
Proof.
  apply clean_plate_text_never_corrected_letter; [simpl; lia | reflexivity].
Defined.

(** ** [is_valid_plate_format] *)

Lemma match_rep_first cls lo hi k s :
  match_rep cls lo hi k s = true → 1 ≤ lo →
  string_exists cls s = true.
Proof.
  intros Hm Hlo. destruct lo as [|lo]; [lia|]. destruct hi as [|hi]; [done|].
  simpl in Hm. destruct s as [|c s]; [done|].
  apply andb_true_iff in Hm as [Hc _]. simpl. by rewrite Hc.
Qed.

Lemma match_rep_cont cls hi : ∀ lo k s,
  match_rep cls lo hi k s = true →
  ∃ s', k s' = true ∧
        ∀ f, string_exists f s' = true → string_exists f s = true.
Proof.
  induction hi as [|hi IH]; intros lo k s; simpl.
  - intros [_ Hk]%andb_true_iff. by exists s.
  - intros [[_ Hk]%andb_true_iff|Hm]%orb_true_iff; [by exists s|].
    destruct s as [|c s]; [done|].
    apply andb_true_iff in Hm as [_ Hm].
    destruct (IH _ _ _ Hm) as (s' & Hk & Hsub). exists s'. split; [done|].
    intros f Hf. simpl. rewrite (Hsub f Hf). apply orb_true_r.
Qed.

Lemma re_match_two_classes c1 lo1 hi1 c2 lo2 hi2 rest s :
  re_match ((c1, lo1, hi1) :: (c2, lo2, hi2) :: rest) s = true →
  1 ≤ lo1 → 1 ≤ lo2 →
  string_exists c1 s = true ∧ string_exists c2 s = true.
Proof.
  cbn [re_match]. intros Hm H1 H2. split; [by eapply match_rep_first|].
  apply match_rep_cont in Hm as (s' & Hm' & Hsub).
  apply Hsub. by eapply match_rep_first.
Qed.

Lemma patterns_letter_digit pattern s :
  pattern ∈ patterns → re_match pattern s = true →
  string_exists is_capital s = true ∧ string_exists is_digit s = true.
Proof.
  unfold patterns. intros Hin Hm.
  repeat (apply elem_of_cons in Hin as [->|Hin]);
    [..|by apply elem_of_nil in Hin];
    apply re_match_two_classes in Hm as [? ?]; (lia || done).
Qed.

(** X4: the text is accepted exactly when it has between 4 and 10
    characters, at least one capital letter and at least one digit; the six
    patterns accept nothing that the final test would reject. *)
Theorem is_valid_plate_format_letter_and_digit text :
  is_valid_plate_format text =
  (4 <=? String.length text) && (String.length text <=? 10)
  && string_exists is_capital text && string_exists is_digit text.
Proof.
  unfold is_valid_plate_format.
  destruct (String.length text <? 4) eqn:H4; cbn [orb].
  { apply Nat.ltb_lt in H4.
    by rewrite (proj2 (Nat.leb_gt 4 (String.length text))) by lia. }
  apply Nat.ltb_ge in H4. rewrite (proj2 (Nat.leb_le _ _) H4). cbn [andb].
  destruct (10 <? String.length text) eqn:H10.
  { apply Nat.ltb_lt in H10.
    by rewrite (proj2 (Nat.leb_gt (String.length text) 10)) by lia. }
  apply Nat.ltb_ge in H10. rewrite (proj2 (Nat.leb_le _ _) H10). cbn [andb].
  destruct (existsb (λ pattern, re_match pattern text) patterns) eqn:Hex.
  - apply existsb_exists in Hex as (pattern & Hin & Hm).
    apply list_elem_of_In in Hin.
    destruct (patterns_letter_digit pattern text Hin Hm) as [-> ->]. done.
  - by rewrite andb_true_r.
Qed.

Lemma string_exists_and_forall (P Q : ascii → bool) s :
  string_exists P s = true → string_forall Q s = true →
  string_exists (λ c, P c && Q c) s = true.
Proof.
  induction s as [|c s IH]; simpl; [done|].
  intros [Hc|Hs]%orb_true_iff [Hq Hqs]%andb_true_iff.
  - by rewrite Hc, Hq.
  - rewrite IH by done. apply orb_true_r.
Qed.

(** X5: a text that passes the format check after cleaning has 4 to 10
    characters, among them a digit and a capital letter that is none of
    O, I, L, Z, S, B, G. *)
Theorem cleaned_text_accepted text :
  is_valid_plate_format (clean_plate_text text) = true →
  4 ≤ String.length (clean_plate_text text) ≤ 10 ∧
  string_exists (λ c, is_capital c && negb (corrected_letter c))
    (clean_plate_text text) = true ∧
  string_exists is_digit (clean_plate_text text) = true.
Proof.
  rewrite is_valid_plate_format_letter_and_digit.
  intros [[[H4%Nat.leb_le H10%Nat.leb_le]%andb_true_iff Hl]%andb_true_iff Hd]
    %andb_true_iff.
  split; [done|]. split; [|done].
  apply string_exists_and_forall; [done|].
  by apply clean_plate_text_corrected.
Qed.

Lemma cleaned_text_accepted_witness :
  4 ≤ String.length (clean_plate_text "mh01 ab-1234") ≤ 10 ∧
  string_exists is_digit (clean_plate_text "mh01 ab-1234") = true.
Proof.
  destruct (cleaned_text_accepted "mh01 ab-1234" eq_refl) as (Hlen & _ & Hd).
  split; [exact Hlen | exact Hd].
Defined.

(** ** Whitespace and case *)

Lemma isspace_upper c : isspace (upper_ascii c) = isspace c.
Proof. all_ascii c. Qed.

Lemma upper_ascii_idempotent c : upper_ascii (upper_ascii c) = upper_ascii c.
Proof. all_ascii c. Qed.

Lemma upper_idempotent s : upper (upper s) = upper s.
Proof.
  induction s as [|c s IH]; simpl; [done|].
  by rewrite upper_ascii_idempotent, IH.
Qed.

Lemma length_upper s : String.length (upper s) = String.length s.
Proof. induction s as [|c s IH]; simpl; [done|]. by rewrite IH. Qed.

Lemma upper_lstrip s : upper (lstrip s) = lstrip (upper s).
Proof.
  induction s as [|c s IH]; simpl; [done|].
  rewrite isspace_upper. by destruct (isspace c).
Qed.

Lemma upper_rstrip s : upper (rstrip s) = rstrip (upper s).
Proof.
  induction s as [|c s IH]; simpl; [done|].
  rewrite <-IH, isspace_upper.
  destruct (rstrip s) as [|d r]; simpl; [by destruct (isspace c)|done].
Qed.

Lemma upper_strip s : upper (strip s) = strip (upper s).
Proof. unfold strip. by rewrite upper_rstrip, upper_lstrip. Qed.

Lemma length_lstrip s :
  String.length (lstrip s) ≤ String.length s ∧
  (String.length (lstrip s) = String.length s → lstrip s = s).
Proof.
  induction s as [|c s [IH1 IH2]]; simpl; [done|].
  destruct (isspace c); simpl; [|done]. split; lia.
Qed.

Lemma length_rstrip s :
  String.length (rstrip s) ≤ String.length s ∧
  (String.length (rstrip s) = String.length s → rstrip s = s).
Proof.
  induction s as [|c s [IH1 IH2]]; simpl; [done|].
  destruct (rstrip s) as [|d r] eqn:Hr; simpl in *.
  - destruct (isspace c); simpl; split; try lia.
    intros Hlen. destruct s; [done|simpl in Hlen; lia].
  - split; [lia|]. intros Hlen. f_equal. apply IH2. lia.
Qed.

(** A text that [strip] leaves alone starts and ends without whitespace. *)
Lemma strip_fixed s : strip s = s → lstrip s = s ∧ rstrip s = s.
Proof.
  unfold strip. intros Hs.
  destruct (length_lstrip s) as [Hl1 Hl2].
  destruct (length_rstrip (lstrip s)) as [Hr1 _].
  assert (lstrip s = s) as Hls by (apply Hl2; rewrite Hs in Hr1; lia).
  split; [done|]. by rewrite Hls in Hs.
Qed.

Lemma strip_fixed_length s :
  String.length (strip s) = String.length s → strip s = s.
Proof.
  unfold strip. intros Hlen.
  destruct (length_lstrip s) as [Hl1 Hl2].
  destruct (length_rstrip (lstrip s)) as [Hr1 Hr2].
  assert (lstrip s = s) as Hls by (apply Hl2; lia).
  rewrite Hls in *. by apply Hr2.
Qed.

Lemma rstrip_idempotent s : rstrip (rstrip s) = rstrip s.
Proof.
  induction s as [|c s IH]; simpl; [done|].
  destruct (rstrip s) as [|d r] eqn:Hr.
  - destruct (isspace c) eqn:Hc; simpl; [done|]. by rewrite Hc.
  - change (rstrip (String c (String d r)))
      with (match rstrip (String d r) with
            | EmptyString => if isspace c then EmptyString
                             else String c EmptyString
            | r' => String c r'
            end).
    by rewrite IH.
Qed.

Lemma lstrip_rstrip s : lstrip s = s → lstrip (rstrip s) = rstrip s.
Proof.
  destruct s as [|c s]; [done|]. simpl.
  destruct (isspace c) eqn:Hc.
  - intros Hs. destruct (length_lstrip s) as [Hl _].
    apply (f_equal String.length) in Hs. simpl in Hs. lia.
  - intros _. destruct (rstrip s); simpl; by rewrite Hc.
Qed.

Lemma lstrip_idempotent s : lstrip (lstrip s) = lstrip s.
Proof.
  induction s as [|c s IH]; simpl; [done|].
  destruct (isspace c) eqn:Hc; [done|]. simpl. by rewrite Hc.
Qed.

Lemma strip_idempotent s : strip (strip s) = strip s.
Proof.
  unfold strip.
  rewrite (lstrip_rstrip (lstrip s)) by apply lstrip_idempotent.
  apply rstrip_idempotent.
Qed.

Lemma rstrip_newline s : rstrip (s +:+ String "010" EmptyString) = rstrip s.
Proof. induction s as [|c s IH]; simpl; [done|]. by rewrite IH. Qed.

Lemma lstrip_newline s :
  lstrip (s +:+ String "010" EmptyString) =
  match lstrip s with
  | EmptyString => EmptyString
  | r => r +:+ String "010" EmptyString
  end.
Proof.
  induction s as [|c s IH]; simpl; [done|].
  by destruct (isspace c).
Qed.

(** The newline that ends a line does not survive [strip]. *)
Lemma strip_newline s : strip (s +:+ String "010" EmptyString) = strip s.
Proof.
  unfold strip. rewrite lstrip_newline.
  destruct (lstrip s); [done|]. apply rstrip_newline.
Qed.

(** Every entry the lookup compares with is free of outer whitespace. *)
Lemma existing_plate_stripped line :
  strip (upper (strip line)) = upper (strip line).
Proof. by rewrite <-upper_strip, strip_idempotent. Qed.

(** ** Text files *)

Lemma append_cons c (a b : string) : String c a +:+ b = String c (a +:+ b).
Proof. reflexivity. Qed.

Lemma append_nil s : s +:+ EmptyString = s.
Proof. induction s as [|c s IH]; [done|]. by rewrite append_cons, IH. Qed.

Lemma append_assoc (a b c : string) : (a +:+ b) +:+ c = a +:+ (b +:+ c).
Proof. induction a as [|x a IH]; [done|]. by rewrite !append_cons, IH. Qed.

Lemma file_text_cons line lines :
  file_text (line :: lines) = line +:+ file_text lines.
Proof.
  unfold file_text. destruct lines; simpl; [|done].
  symmetry. apply append_nil.
Qed.

Lemma split_lines_nil content : split_lines content = [] → content = EmptyString.
Proof.
  destruct content as [|c rest]; [done|]. simpl.
  destruct (is_newline c); [done|]. by destruct (split_lines rest).
Qed.

Lemma complete_text_tail c rest :
  complete_text (String c rest) = true →
  complete_text rest = true ∧
  (is_newline c = false → rest ≠ EmptyString).
Proof.
  unfold is_newline. simpl. destruct rest as [|d rest]; [|done].
  intros Hc. split; [done|]. by rewrite Hc.
Qed.

(** Cutting a text that ends with a newline followed by more text gives
    the lines of the one followed by the lines of the other. *)
Lemma split_lines_app a b :
  complete_text a = true →
  split_lines (a +:+ b) = split_lines a ++ split_lines b.
Proof.
  induction a as [|c a IH]; [done|].
  intros Hc. apply complete_text_tail in Hc as [Ha Hne].
  rewrite append_cons. cbn [split_lines]. rewrite IH by done.
  destruct (is_newline c) eqn:Hnl; [done|].
  destruct (split_lines a) as [|line lines] eqn:Hr; [|done].
  apply split_lines_nil in Hr. by destruct (Hne eq_refl).
Qed.

Lemma split_lines_line u :
  string_exists is_newline u = false →
  split_lines (u +:+ String "010" EmptyString)
  = [u +:+ String "010" EmptyString].
Proof.
  induction u as [|c u IH]; [done|].
  rewrite append_cons. cbn [string_exists split_lines].
  intros [Hc Hu]%orb_false_iff. rewrite Hc. by rewrite IH.
Qed.

Lemma complete_text_newline a :
  complete_text (a +:+ String "010" EmptyString) = true.
Proof.
  induction a as [|c a IH]; [done|].
  rewrite append_cons. destruct a; [done|]. exact IH.
Qed.

Lemma file_text_app l1 l2 : file_text (l1 ++ l2) = file_text l1 +:+ file_text l2.
Proof.
  induction l1 as [|x l1 IH]; [done|].
  rewrite <-app_comm_cons, !file_text_cons, IH. by rewrite append_assoc.
Qed.

(** The lines of a text, put together again, are the text. *)
Lemma file_text_split_lines content : file_text (split_lines content) = content.
Proof.
  induction content as [|c content IH]; [done|]. cbn [split_lines].
  destruct (is_newline c).
  - by rewrite file_text_cons, IH.
  - destruct (split_lines content) as [|line lines] eqn:Hr.
    + apply split_lines_nil in Hr as ->. done.
    + rewrite file_text_cons, append_cons. rewrite file_text_cons in IH.
      by rewrite IH.
Qed.

Lemma string_exists_app f a b :
  string_exists f (a +:+ b) = string_exists f a || string_exists f b.
Proof.
  induction a as [|c a IH]; [done|].
  rewrite append_cons. cbn [string_exists]. by rewrite IH, orb_assoc.
Qed.


(** A text without carriage return is read as it is. *)
Lemma universal_newlines_fixed content :
  string_exists is_return content = false →
  universal_newlines content = content.
Proof.
  induction content as [|c content IH]; [done|]. cbn [string_exists].
  intros [Hc Hrest]%orb_false_iff. cbn [universal_newlines].
  by rewrite Hc, IH.
Qed.

(** What is read holds no carriage return. *)
Lemma universal_newlines_no_return content :
  string_exists is_return (universal_newlines content) = false.
Proof.
  induction content as [|c content IH]; [done|]. cbn [universal_newlines].
  destruct (is_return c) eqn:Hc.
  - destruct (starts_with_newline content); [done|].
    cbn [string_exists]. by rewrite IH.
  - cbn [string_exists]. by rewrite Hc, IH.
Qed.



Lemma file_text_readlines content :
  file_text (readlines content) = universal_newlines content.
Proof. apply file_text_split_lines. Qed.


(** The lines that were read hold no carriage return. *)
Lemma read_lines_no_return lines :
  readlines (file_text lines) = lines →
  universal_newlines (file_text lines) = file_text lines ∧
  split_lines (file_text lines) = lines.
Proof.
  intros Hlines.
  assert (Hfix : universal_newlines (file_text lines) = file_text lines).
  { rewrite <-Hlines at 2. by rewrite file_text_readlines. }
  split; [done|]. unfold readlines in Hlines. by rewrite Hfix in Hlines.
Qed.

Lemma upper_no_line_break s :
  string_exists is_line_break (upper s) = string_exists is_line_break s.
Proof.
  induction s as [|c s IH]; simpl; [done|]. rewrite IH. f_equal.
  clear. all_ascii c.
Qed.

Lemma no_line_break s :
  string_exists is_line_break s = false →
  string_exists is_newline s = false ∧ string_exists is_return s = false.
Proof.
  induction s as [|c s IH]; [done|]. cbn [string_exists]. unfold is_line_break at 1.
  intros [[Hn Hr]%orb_false_iff Hs]%orb_false_iff.
  destruct (IH Hs) as [-> ->]. by rewrite Hn, Hr.
Qed.

(** Reading a complete text to which one line was appended. *)
Lemma readlines_appended lines u :
  readlines (file_text lines) = lines →
  complete_text (file_text lines) = true →
  string_exists is_line_break u = false →
  readlines (file_text lines +:+ (u +:+ String "010" EmptyString))
  = lines ++ [u +:+ String "010" EmptyString].
Proof.
  intros [Hfix Hlines]%read_lines_no_return Hcomplete [Hn Hr]%no_line_break.
  unfold readlines. rewrite universal_newlines_fixed.
  - by rewrite split_lines_app, split_lines_line, Hlines.
  - rewrite !string_exists_app, Hr, orb_false_r. cbn [string_exists orb].
    rewrite <-Hfix. apply universal_newlines_no_return.
Qed.

(** ** [add_authorized_plate] and [verify_authorized_plate] *)

Lemma verify_lines s lines txt :
  authorized_plates_db s = Lines lines →
  verify_authorized_plate s txt =
  bool_decide (upper txt ∈ (λ line, upper (strip line)) <$> lines).
Proof. unfold verify_authorized_plate. by intros ->. Qed.

(** A plate the lookup accepts is not written again. *)
Lemma add_authorized_plate_listed s can_write plate_text :
  verify_authorized_plate s plate_text = true →
  add_authorized_plate s can_write plate_text = (true, s).
Proof.
  unfold add_authorized_plate, verify_authorized_plate.
  destruct (authorized_plates_db s); [done|done|]. by intros ->.
Qed.

(** What the file holds after a plate that was not listed is written. *)
Lemma add_authorized_plate_appends s plate_text :
  allow_list_complete s →
  string_exists is_line_break plate_text = false →
  authorized_plates_db s ≠ Unreadable →
  verify_authorized_plate s plate_text = false →
  add_authorized_plate s true plate_text =
  (true,
   set_authorized_plates_db s
     (Lines (match authorized_plates_db s with
             | Lines lines => lines
             | _ => []
             end ++ [upper plate_text +:+ String "010" EmptyString]))).
Proof.
  unfold allow_list_complete, add_authorized_plate, verify_authorized_plate.
  intros Hok Hnl Hdb Hv. rewrite <-upper_no_line_break in Hnl.
  destruct (authorized_plates_db s) as [| |lines]; [|done|].
  - pose proof (readlines_appended [] (upper plate_text) eq_refl eq_refl Hnl)
      as Hread.
    change (file_text [] +:+ ?e) with e in Hread. by rewrite Hread.
  - destruct Hok as [Hlines Hcomplete]. rewrite Hv.
    by rewrite readlines_appended.
Qed.

Lemma verify_after_line s lines line txt :
  verify_authorized_plate (set_authorized_plates_db s (Lines (lines ++ [line]))) txt
  = bool_decide (upper txt ∈ (λ line, upper (strip line)) <$> lines)
    || bool_decide (upper txt = upper (strip line)).
Proof.
  unfold verify_authorized_plate. cbn [authorized_plates_db set_authorized_plates_db].
  rewrite fmap_app. cbn [fmap list_fmap].
  apply eq_true_iff_eq. rewrite orb_true_iff, !bool_decide_eq_true.
  rewrite elem_of_app, list_elem_of_singleton. done.
Qed.

Lemma verify_upper s p q :
  upper p = upper q → verify_authorized_plate s p = verify_authorized_plate s q.
Proof. unfold verify_authorized_plate. by intros ->. Qed.

(** X6: after [add_authorized_plate] has written a plate text into a
    readable allow-list that ends with a newline (or into a new file), the
    lookup accepts that text, and adding it once more returns [True] and
    leaves the file as it is, whether or not it can be written.  The
    plate text is a non-empty ASCII text without outer whitespace and
    without line break (line feed or carriage return). *)
Theorem add_then_verify s plate_text :
  allow_list_complete s →
  authorized_plates_db s ≠ Unreadable →
  plate_text ≠ EmptyString →
  string_forall is_ascii plate_text = true →
  string_exists is_line_break plate_text = false →
  strip plate_text = plate_text →
  let s' := (add_authorized_plate s true plate_text).2 in
  (add_authorized_plate s true plate_text).1 = true ∧
  verify_authorized_plate s' plate_text = true ∧
  ∀ can_write, add_authorized_plate s' can_write plate_text = (true, s').
Proof.
  intros Hok Hdb _ _ Hnl Hstrip. cbn zeta.
  assert (Hv' : verify_authorized_plate
                  (add_authorized_plate s true plate_text).2 plate_text = true).
  { destruct (verify_authorized_plate s plate_text) eqn:Hv.
    - by rewrite add_authorized_plate_listed.
    - rewrite add_authorized_plate_appends by done. cbn [snd].
      rewrite verify_after_line.
      rewrite strip_newline, <-upper_strip, Hstrip, upper_idempotent.
      rewrite (bool_decide_eq_true_2 (upper plate_text = upper plate_text))
        by done.
      apply orb_true_r. }
  split; [|split; [done|]].
  - destruct (verify_authorized_plate s plate_text) eqn:Hv.
    + by rewrite add_authorized_plate_listed.
    + by rewrite add_authorized_plate_appends.
  - intros can_write. by apply add_authorized_plate_listed.
Qed.

Lemma add_then_verify_witness :
  let s' := (add_authorized_plate Scenario.booth true "zz9999").2 in
  verify_authorized_plate Scenario.booth "zz9999" = false ∧
  verify_authorized_plate s' "ZZ9999" = true ∧
  add_authorized_plate s' false "zz9999" = (true, s').
Proof.
  cbn zeta. split; [reflexivity|].
  destruct (add_then_verify Scenario.booth "zz9999") as (_ & Hv & Hagain);
    [split; reflexivity | discriminate | discriminate
    | reflexivity | reflexivity | reflexivity |].
  split; [|exact (Hagain false)].
  rewrite <-Hv. by apply verify_upper.
Defined.

(** X7: after a successful [add_authorized_plate] of a non-empty ASCII
    plate text without line break on an allow-list that ends with a
    newline, an ASCII text is accepted by the lookup exactly when it was
    accepted before or equals, up to case, the added plate text taken
    without its outer whitespace.  In particular no plate loses its
    authorization. *)
Theorem add_authorizes_exactly s can_write plate_text q :
  allow_list_complete s →
  plate_text ≠ EmptyString →
  string_forall is_ascii plate_text = true →
  string_exists is_line_break plate_text = false →
  string_forall is_ascii q = true →
  (add_authorized_plate s can_write plate_text).1 = true →
  verify_authorized_plate (add_authorized_plate s can_write plate_text).2 q
  = verify_authorized_plate s q
    || bool_decide (upper q = strip (upper plate_text)).
Proof.
  intros Hok _ _ Hnl _ Hres.
  destruct (verify_authorized_plate s plate_text) eqn:Hv.
  - rewrite add_authorized_plate_listed by done. cbn [snd].
    case_bool_decide as Hq; [|by rewrite orb_false_r].
    rewrite orb_true_r. rewrite <-Hv. apply verify_upper.
    unfold verify_authorized_plate in Hv.
    destruct (authorized_plates_db s) as [| |lines]; [done|done|].
    apply bool_decide_eq_true in Hv.
    apply list_elem_of_fmap in Hv as (line & Hline & _).
    by rewrite Hq, Hline, existing_plate_stripped.
  - assert (can_write = true ∧ authorized_plates_db s ≠ Unreadable)
      as [-> Hdb].
    { unfold add_authorized_plate, verify_authorized_plate in *.
      destruct (authorized_plates_db s); [| done |rewrite Hv in Hres];
        by destruct can_write. }
    rewrite add_authorized_plate_appends by done. cbn [snd].
    rewrite verify_after_line.
    rewrite strip_newline, <-upper_strip, upper_idempotent. f_equal.
    unfold verify_authorized_plate.
    by destruct (authorized_plates_db s).
Qed.

Lemma add_authorizes_exactly_witness :
  let s' := (add_authorized_plate Scenario.booth true " zz9999").2 in
  verify_authorized_plate s' "AB1234" = true ∧
  verify_authorized_plate s' "zz9999" = true ∧
  verify_authorized_plate s' " zz9999" = false ∧
  verify_authorized_plate s' "zz999" = false.
Proof.
  cbn zeta.
  assert (Hall : ∀ q, string_forall is_ascii q = true →
    verify_authorized_plate
      (add_authorized_plate Scenario.booth true " zz9999").2 q
    = verify_authorized_plate Scenario.booth q
      || bool_decide (upper q = strip (upper " zz9999"))).
  { intros q Hq. apply add_authorizes_exactly;
      [split; reflexivity | discriminate | reflexivity | reflexivity
      | exact Hq | reflexivity]. }
  rewrite !Hall by reflexivity. repeat split; reflexivity.
Defined.

(** X8: a text with leading or trailing whitespace is accepted by no
    allow-list: the lines of the file are stripped before the comparison
    and the text is not.  [add_authorized_plate] cannot make the lookup
    accept such a text. *)
Theorem outer_whitespace_never_authorized s can_write plate_text :
  strip plate_text ≠ plate_text →
  verify_authorized_plate s plate_text = false ∧
  verify_authorized_plate (add_authorized_plate s can_write plate_text).2
    plate_text = false.
Proof.
  intros Hstrip.
  assert (Hnever : ∀ s', verify_authorized_plate s' plate_text = false).
  { intros s'. unfold verify_authorized_plate.
    destruct (authorized_plates_db s') as [| |lines]; [done|done|].
    apply bool_decide_eq_false. intros Hin.
    apply list_elem_of_fmap in Hin as (line & Hline & _).
    apply Hstrip. apply strip_fixed_length.
    rewrite <-(length_upper (strip plate_text)), upper_strip, Hline.
    by rewrite existing_plate_stripped, <-Hline, length_upper. }
  split; apply Hnever.
Qed.

Lemma outer_whitespace_never_authorized_witness :
  verify_authorized_plate
    (add_authorized_plate Scenario.booth true "zz9999 ").2 "zz9999 " = false.
Proof.
  apply (outer_whitespace_never_authorized Scenario.booth true "zz9999 ").
  discriminate.
Defined.



End RecognizerFacts.

(** * Further properties of the toll decision *)
Module TollMore.
Import Toll Feed TollFacts.

Open Scope Z_scope.

(** ** One frame *)

(** The decision of [make_toll_decision] and what it writes. *)
Lemma make_toll_decision_cases s plates st :
  make_toll_decision s plates st =
  match plates with
  | [] => (NO_PLATE_DETECTED, s)
  | plate0 :: _ =>
      if authorized_plate_found s plates then
        if get_flag (drowsy st) || get_flag (yawning st)
        then (SAFETY_VIOLATION, log_violation s UNSAFE_DRIVER (text plate0))
        else (ACCESS_GRANTED, s)
      else (ACCESS_DENIED, log_violation s UNAUTHORIZED_PLATE (text plate0))
  end.
Proof.
  unfold make_toll_decision. destruct plates as [|plate0 rest]; [done|].
  by destruct (authorized_plate_found s (plate0 :: rest)).
Qed.

Lemma log_violation_frame s ty txt :
  authorized_plates_db (log_violation s ty txt) = authorized_plates_db s ∧
  clock (log_violation s ty txt) = clock s ∧
  session_ident (log_violation s ty txt) = session_ident s.
Proof. unfold log_violation. by destruct (violation_log s). Qed.

Lemma make_toll_decision_frame s plates st :
  authorized_plates_db (make_toll_decision s plates st).2 = authorized_plates_db s ∧
  clock (make_toll_decision s plates st).2 = clock s ∧
  session_ident (make_toll_decision s plates st).2 = session_ident s.
Proof.
  rewrite make_toll_decision_cases. destruct plates as [|plate0 rest]; [done|].
  destruct (authorized_plate_found s (plate0 :: rest));
    [destruct (_ || _)|]; cbn [snd]; try done; apply log_violation_frame.
Qed.

Lemma verify_db s s' txt :
  authorized_plates_db s' = authorized_plates_db s →
  verify_authorized_plate s' txt = verify_authorized_plate s txt.
Proof. unfold verify_authorized_plate. by intros ->. Qed.

Lemma verify_true_line s txt :
  verify_authorized_plate s txt = true →
  ∃ lines line, authorized_plates_db s = Lines lines ∧ line ∈ lines ∧
                upper (strip line) = upper txt.
Proof.
  unfold verify_authorized_plate.
  destruct (authorized_plates_db s) as [| |lines]; [done|done|].
  intros Hin%bool_decide_eq_true.
  apply list_elem_of_fmap in Hin as (line & Heq & Hin). by exists lines, line.
Qed.

(** X10: access is granted exactly when the detectors delivered, some
    detected plate is authorized and the status is neither drowsy nor
    yawning.  A granted frame therefore rests on a line of a readable
    allow-list that equals a detected plate up to case and outer
    whitespace; it writes nothing to the violation log, leaves
    [violation_count] alone and marks the driver safe. *)
Theorem access_granted_iff s detected :
  let r := process_frame s detected in
  (r.1 = ACCESS_GRANTED ↔
   ∃ plates st, detected = Some (plates, st) ∧
     authorized_plate_found s plates = true ∧
     get_flag (drowsy st) = false ∧ get_flag (yawning st) = false) ∧
  (r.1 = ACCESS_GRANTED →
   (∃ plates st p lines line,
      detected = Some (plates, st) ∧ p ∈ plates ∧
      authorized_plates_db s = Lines lines ∧ line ∈ lines ∧
      upper (strip line) = upper (text p)) ∧
   violation_log r.2 = violation_log s ∧
   violation_count (current_session r.2) = violation_count (current_session s) ∧
   driver_safe (current_session r.2) = true).
Proof.
  cbn zeta.
  assert (Hiff : (process_frame s detected).1 = ACCESS_GRANTED ↔
    ∃ plates st, detected = Some (plates, st) ∧
      authorized_plate_found s plates = true ∧
      get_flag (drowsy st) = false ∧ get_flag (yawning st) = false).
  { destruct detected as [[plates st]|]; [|split; [done|by intros (?&?&?&_)]].
    rewrite process_frame_detected, make_toll_decision_cases. split.
    - intros Hd. exists plates, st. split; [done|].
      destruct plates as [|plate0 rest]; [done|].
      destruct (authorized_plate_found s (plate0 :: rest)); [|done].
      split; [done|].
      destruct (get_flag (drowsy st)), (get_flag (yawning st)); done.
    - intros (plates' & st' & [= <- <-] & Hfound & Hd & Hy).
      destruct plates as [|plate0 rest]; [done|].
      by rewrite Hfound, Hd, Hy. }
  split; [exact Hiff|]. intros Hgrant.
  apply Hiff in Hgrant as (plates & st & -> & Hfound & Hd & Hy).
  apply authorized_plate_found_true in Hfound as Hp.
  destruct Hp as (p & Hp & Hv).
  apply verify_true_line in Hv as (lines & line & Hdb & Hline & Heq).
  split; [by exists plates, st, p, lines, line|].
  rewrite process_frame_detected, make_toll_decision_cases.
  destruct plates as [|plate0 rest]; [by apply elem_of_nil in Hp|].
  rewrite Hfound, Hd, Hy. cbn [orb snd].
  pose proof (session_after_update s (plate0 :: rest) st)
    as (Hsafe & Hcount & _).
  rewrite Hd, Hy in Hsafe, Hcount. done.
Qed.

(** X11: when some detected plate is authorized and the status is drowsy
    or yawning, the decision is [SAFETY_VIOLATION], exactly one
    [UNSAFE_DRIVER] entry naming the first plate is appended to the
    violation log (none when the log cannot be written), [violation_count]
    grows by one, [driver_safe] becomes false, and the session's
    [is_authorized] is the authorization of the first plate, which need not
    be the authorized one. *)
Theorem unsafe_authorized_cycle s plate0 rest st :
  authorized_plate_found s (plate0 :: rest) = true →
  get_flag (drowsy st) || get_flag (yawning st) = true →
  let r := process_frame s (Some (plate0 :: rest, st)) in
  r.1 = SAFETY_VIOLATION ∧
  violation_log r.2 =
    (λ entries, entries ++
       [{| timestamp := clock s; violation_type := UNSAFE_DRIVER;
           plate := text plate0; session_id := session_ident s |}])
    <$> violation_log s ∧
  violation_count (current_session r.2)
    = violation_count (current_session s) + 1 ∧
  driver_safe (current_session r.2) = false ∧
  is_authorized (current_session r.2)
    = verify_authorized_plate s (text plate0).
Proof.
  intros Hfound Hunsafe. cbn zeta.
  rewrite process_frame_detected, make_toll_decision_cases, Hfound, Hunsafe.
  cbn [fst snd]. split; [done|].
  rewrite violation_log_update_session_state.
  split; [apply violation_log_log_violation|].
  pose proof (session_after_update
    (log_violation s UNSAFE_DRIVER (text plate0)) (plate0 :: rest) st)
    as (Hsafe & Hcount & Hauth).
  rewrite Hunsafe in Hsafe, Hcount.
  rewrite Hauth, Hcount, Hsafe, verify_log_violation,
    current_session_log_violation.
  done.
Qed.

Lemma unsafe_authorized_cycle_witness :
  let r := process_frame Scenario.booth
             (Some ([Scenario.plate "ZZ9999"; Scenario.plate "AB1234"],
                    Scenario.sleepy)) in
  r.1 = SAFETY_VIOLATION ∧
  violation_count (current_session r.2) = 1 ∧
  is_authorized (current_session r.2) = false.
Proof.
  pose proof (unsafe_authorized_cycle Scenario.booth (Scenario.plate "ZZ9999")
                [Scenario.plate "AB1234"] Scenario.sleepy eq_refl eq_refl)
    as (Hd & _ & Hc & _ & Ha).
  split; [exact Hd|]. split; [exact Hc | exact Ha].
Defined.

Lemma process_frame_frame s detected :
  authorized_plates_db (process_frame s detected).2 = authorized_plates_db s ∧
  clock (process_frame s detected).2 = clock s ∧
  session_ident (process_frame s detected).2 = session_ident s ∧
  session_start (current_session (process_frame s detected).2)
    = session_start (current_session s).
Proof.
  destruct detected as [[plates st]|]; [|done].
  rewrite process_frame_detected. cbn [snd].
  destruct (make_toll_decision_frame s plates st) as (Hdb & Hclock & Hid).
  pose proof (current_session_make_toll_decision s plates st) as Hsess.
  unfold update_session_state.
  cbn [authorized_plates_db clock session_ident current_session
       set_current_session session_start].
  rewrite Hsess. by destruct plates.
Qed.

Lemma process_frame_log s detected :
  violation_log (process_frame s detected).2 =
  if logged_decision (process_frame s detected).1 then
    (λ entries, entries ++
       [{| timestamp := clock s;
           violation_type :=
             match (process_frame s detected).1 with
             | ACCESS_DENIED => UNAUTHORIZED_PLATE
             | _ => UNSAFE_DRIVER
             end;
           plate := match detected with
                    | Some (plate0 :: _, _) => text plate0
                    | _ => EmptyString
                    end;
           session_id := session_ident s |}])
    <$> violation_log s
  else violation_log s.
Proof.
  destruct detected as [[plates st]|]; [|done].
  rewrite process_frame_detected, make_toll_decision_cases. cbn [fst snd].
  rewrite violation_log_update_session_state.
  destruct plates as [|plate0 rest]; [done|].
  destruct (authorized_plate_found s (plate0 :: rest));
    [destruct (_ || _)|]; cbn [fst snd logged_decision];
    try done; apply violation_log_log_violation.
Qed.

(** X12: every frame yields a decision other than [PENDING]; it is [ERROR]
    exactly when a detector raised, and then the system is unchanged.  The
    allow-list, the clock, the session identity and the session start are
    never touched.  The violation log receives exactly one entry when the
    decision is [ACCESS_DENIED] or [SAFETY_VIOLATION] (and the log can be
    written), stamped with the clock and the session identity and naming
    the first plate, and is unchanged for every other decision. *)
Theorem one_log_entry_per_logged_decision s detected :
  let r := process_frame s detected in
  r.1 ≠ PENDING ∧
  (r.1 = ERROR ↔ detected = None) ∧
  (detected = None → r.2 = s) ∧
  authorized_plates_db r.2 = authorized_plates_db s ∧
  clock r.2 = clock s ∧
  session_ident r.2 = session_ident s ∧
  session_start (current_session r.2) = session_start (current_session s) ∧
  violation_log r.2 =
    if logged_decision r.1 then
      (λ entries, entries ++
         [{| timestamp := clock s;
             violation_type :=
               match r.1 with
               | ACCESS_DENIED => UNAUTHORIZED_PLATE
               | _ => UNSAFE_DRIVER
               end;
             plate := match detected with
                      | Some (plate0 :: _, _) => text plate0
                      | _ => EmptyString
                      end;
             session_id := session_ident s |}])
      <$> violation_log s
    else violation_log s.
Proof.
  cbn zeta.
  destruct (process_frame_frame s detected) as (Hdb & Hclock & Hid & Hstart).
  assert (Hdec : (process_frame s detected).1 ≠ PENDING ∧
                 ((process_frame s detected).1 = ERROR ↔ detected = None)).
  { destruct detected as [[plates st]|]; [|done].
    rewrite process_frame_detected, make_toll_decision_cases. cbn [fst].
    destruct plates as [|plate0 rest]; [done|].
    destruct (authorized_plate_found s (plate0 :: rest));
      [destruct (_ || _)|]; done. }
  destruct Hdec as [Hpending Herror].
  split; [done|]. split; [done|]. split; [by intros ->|].
  do 4 (split; [done|]). apply process_frame_log.
Qed.

(** ** The camera loop *)

Lemma run_camera_feed_cons s t ticks :
  run_camera_feed s (t :: ticks) =
  let r := process_frame (set_clock s (tick_clock t)) (tick_detected t) in
  match tick_key t with
  | KeyQuit => ([r.1], r.2)
  | KeyReset =>
      let r' := run_camera_feed
                  (reset_session r.2 (tick_time t) (tick_ident t)) ticks in
      (r.1 :: r'.1, r'.2)
  | _ => let r' := run_camera_feed r.2 ticks in (r.1 :: r'.1, r'.2)
  end.
Proof.
  cbn [run_camera_feed]. cbn zeta.
  destruct (process_frame (set_clock s (tick_clock t)) (tick_detected t))
    as [d s1].
  destruct (tick_key t); cbn [fst snd]; try done.
  - by destruct (run_camera_feed (reset_session s1 _ _) ticks).
  - by destruct (run_camera_feed s1 ticks).
  - by destruct (run_camera_feed s1 ticks).
Qed.

(** X13: the camera loop never changes the allow-list and only ever
    appends to the violation log, also across session resets: the entries
    present before the loop are still there, in place, when it ends, and
    the entries added are as many as the frames decided [ACCESS_DENIED] or
    [SAFETY_VIOLATION].  A log that cannot be written stays so. *)
Theorem feed_log_append_only ticks : ∀ s,
  let r := run_camera_feed s ticks in
  authorized_plates_db r.2 = authorized_plates_db s ∧
  length r.1 = length (processed ticks) ∧
  match violation_log s with
  | Some entries =>
      ∃ new, violation_log r.2 = Some (entries ++ new) ∧
             length new = length (filter (λ d, logged_decision d = true) r.1)
  | None => violation_log r.2 = None
  end.
Proof.
  induction ticks as [|t ticks IH]; intros s; cbn zeta.
  { split; [done|]. split; [done|]. cbn [run_camera_feed snd].
    destruct (violation_log s) as [entries|] eqn:Hlog; [|done].
    exists []. by rewrite app_nil_r. }
  rewrite run_camera_feed_cons. cbn zeta.
  set (s0 := set_clock s (tick_clock t)).
  destruct (process_frame_frame s0 (tick_detected t)) as (Hdb & _ & _ & _).
  pose proof (process_frame_log s0 (tick_detected t)) as Hlog.
  set (r := process_frame s0 (tick_detected t)) in *.
  change (authorized_plates_db s0) with (authorized_plates_db s) in Hdb.
  change (violation_log s0) with (violation_log s) in Hlog.
  assert (Hstep : match violation_log s with
     | Some entries =>
         ∃ new, violation_log r.2 = Some (entries ++ new) ∧
                length new = length (filter (λ d, logged_decision d = true) [r.1])
     | None => violation_log r.2 = None
     end).
  { rewrite Hlog. destruct (violation_log s) as [entries|];
      destruct (logged_decision r.1) eqn:Hl; cbn [fmap option_fmap option_map];
      try done.
    - eexists. split; [done|]. cbn [filter list_filter].
      rewrite decide_True by done. done.
    - exists []. rewrite app_nil_r. split; [done|]. cbn [filter list_filter].
      rewrite decide_False by (by rewrite Hl). done. }
  assert (Hcont : ∀ s1,
    authorized_plates_db s1 = authorized_plates_db r.2 →
    violation_log s1 = violation_log r.2 →
    let r' := run_camera_feed s1 ticks in
    authorized_plates_db r'.2 = authorized_plates_db s ∧
    length (r.1 :: r'.1) = S (length (processed ticks)) ∧
    match violation_log s with
    | Some entries =>
        ∃ new, violation_log r'.2 = Some (entries ++ new) ∧
          length new = length (filter (λ d, logged_decision d = true) (r.1 :: r'.1))
    | None => violation_log r'.2 = None
    end).
  { intros s1 Hdb1 Hlog1. cbn zeta.
    destruct (IH s1) as (Hdb' & Hlen' & Hlog').
    split; [by rewrite Hdb', Hdb1|]. split; [by rewrite length_cons, Hlen'|].
    rewrite Hlog1 in Hlog'.
    destruct (violation_log s) as [entries|].
    - destruct Hstep as (new1 & Hnew1 & Hlen1). rewrite Hnew1 in Hlog'.
      destruct Hlog' as (new2 & Hnew2 & Hlen2).
      exists (new1 ++ new2). split; [by rewrite Hnew2, (assoc_L (++))|].
      rewrite length_app, Hlen1, Hlen2.
      change (r.1 :: (run_camera_feed s1 ticks).1)
        with ([r.1] ++ (run_camera_feed s1 ticks).1).
      by rewrite filter_app, length_app.
    - by rewrite Hstep in Hlog'. }
  destruct (tick_key t) eqn:Hkey; cbn [fst snd processed]; rewrite ?Hkey.
  - split; [done|]. split; [done|]. exact Hstep.
  - by apply Hcont.
  - by apply Hcont.
  - by apply Hcont.
Qed.

Lemma process_frame_session s detected :
  let c := current_session s in
  let c' := current_session (process_frame s detected).2 in
  violation_count c' =
    match detected with
    | Some (_, st) =>
        if get_flag (drowsy st) || get_flag (yawning st)
        then violation_count c + 1 else violation_count c
    | None => violation_count c
    end ∧
  plate_detected c' =
    match detected with
    | Some (_ :: _, _) => true
    | _ => plate_detected c
    end.
Proof.
  cbn zeta. destruct detected as [[plates st]|]; [|done].
  rewrite process_frame_detected. cbn [snd].
  pose proof (session_after_update (make_toll_decision s plates st).2 plates st)
    as (_ & Hcount & _).
  rewrite current_session_make_toll_decision in Hcount. split; [done|].
  unfold update_session_state. cbn [current_session set_current_session plate_detected].
  rewrite current_session_make_toll_decision. by destruct plates.
Qed.

(** The session over turns without reset. *)
Lemma feed_session_no_reset ticks : ∀ s,
  Forall (λ t, tick_key t ≠ KeyReset) (processed ticks) →
  let r := run_camera_feed s ticks in
  violation_count (current_session r.2) =
    violation_count (current_session s)
    + Z.of_nat (length (filter (λ t, unsafe_tick t = true) (processed ticks))) ∧
  plate_detected (current_session r.2) =
    plate_detected (current_session s) || existsb plate_tick (processed ticks) ∧
  session_start (current_session r.2) = session_start (current_session s) ∧
  session_ident r.2 = session_ident s.
Proof.
  induction ticks as [|t ticks IH]; intros s Hno; cbn zeta.
  { cbn [run_camera_feed snd processed filter list_filter length existsb].
    rewrite orb_false_r. split; [lia|done]. }
  rewrite run_camera_feed_cons. cbn zeta.
  set (s0 := set_clock s (tick_clock t)).
  destruct (process_frame_frame s0 (tick_detected t)) as (_ & _ & Hid & Hstart).
  destruct (process_frame_session s0 (tick_detected t)) as (Hcount & Hplate).
  set (r := process_frame s0 (tick_detected t)) in *.
  change (current_session s0) with (current_session s) in *.
  change (session_ident s0) with (session_ident s) in *.
  assert (Hone : violation_count (current_session r.2) =
    violation_count (current_session s)
    + Z.of_nat (length (filter (λ t, unsafe_tick t = true) [t])) ∧
    plate_detected (current_session r.2) =
    plate_detected (current_session s) || plate_tick t).
  { rewrite Hcount, Hplate. unfold unsafe_tick, plate_tick.
    cbn [filter list_filter].
    destruct (tick_detected t) as [[plates st]|].
    - split.
      + destruct (get_flag (drowsy st) || get_flag (yawning st)) eqn:Hu.
        * rewrite decide_True by done. simpl. lia.
        * rewrite decide_False by done. simpl. lia.
      + destruct plates; [by rewrite orb_false_r | by rewrite orb_true_r].
    - rewrite decide_False by done. simpl. rewrite orb_false_r.
      split; [lia|done]. }
  destruct Hone as [Hc1 Hp1].
  assert (Hcont : Forall (λ t, tick_key t ≠ KeyReset) (processed ticks) →
    let r' := run_camera_feed r.2 ticks in
    violation_count (current_session r'.2) =
      violation_count (current_session s)
      + Z.of_nat (length (filter (λ t, unsafe_tick t = true)
                            (t :: processed ticks))) ∧
    plate_detected (current_session r'.2) =
      plate_detected (current_session s)
      || existsb plate_tick (t :: processed ticks) ∧
    session_start (current_session r'.2) = session_start (current_session s) ∧
    session_ident r'.2 = session_ident s).
  { intros Hno'. cbn zeta.
    destruct (IH r.2 Hno') as (Hc & Hp & Hs & Hi).
    rewrite Hc, Hp, Hs, Hi, Hc1, Hp1, Hid, Hstart.
    change (t :: processed ticks) with ([t] ++ processed ticks).
    rewrite filter_app, length_app, Nat2Z.inj_add.
    cbn [existsb app]. rewrite orb_assoc. split; [lia|done]. }
  destruct (tick_key t) eqn:Hkey; cbn [processed] in Hno |- *;
    rewrite Hkey in Hno |- *.
  - cbn [snd existsb]. rewrite orb_false_r. by rewrite Hc1, Hp1.
  - apply Forall_cons in Hno as [Hno _]. by rewrite Hkey in Hno.
  - apply Forall_cons in Hno as [_ Hno]. by apply Hcont.
  - apply Forall_cons in Hno as [_ Hno]. by apply Hcont.
Qed.

Lemma processed_no_quit ticks :
  Forall (λ t, tick_key t ≠ KeyQuit) ticks → processed ticks = ticks.
Proof.
  induction ticks as [|t ticks IH]; [done|].
  intros [Ht Hts]%Forall_cons. cbn [processed].
  destruct (tick_key t); [done|..]; by rewrite IH.
Qed.

(** Turns without the quit key are followed by the rest of the loop. *)
Lemma run_camera_feed_app pre : ∀ s post,
  Forall (λ t, tick_key t ≠ KeyQuit) pre →
  run_camera_feed s (pre ++ post) =
  ((run_camera_feed s pre).1 ++ (run_camera_feed (run_camera_feed s pre).2 post).1,
   (run_camera_feed (run_camera_feed s pre).2 post).2).
Proof.
  induction pre as [|t pre IH]; intros s post Hno.
  { cbn [app run_camera_feed fst snd]. by destruct (run_camera_feed s post). }
  apply Forall_cons in Hno as [Ht Hno].
  rewrite <-app_comm_cons, !run_camera_feed_cons. cbn zeta.
  destruct (tick_key t); [done|..]; cbn [fst snd]; by rewrite IH.
Qed.

Lemma run_camera_feed_reset_last pre : ∀ s t,
  Forall (λ t, tick_key t ≠ KeyQuit) pre → tick_key t = KeyReset →
  let s1 := (run_camera_feed s (pre ++ [t])).2 in
  current_session s1 =
    {| plate_detected := false; plate_text := EmptyString;
       is_authorized := false; driver_safe := true;
       violation_count := 0; session_start := Some (tick_time t) |} ∧
  session_ident s1 = tick_ident t.
Proof.
  intros s t Hno Hkey. cbn zeta. rewrite run_camera_feed_app by done.
  cbn [snd]. rewrite run_camera_feed_cons. cbn zeta. by rewrite Hkey.
Qed.

(** X14: from the start of the loop, or from the last reset on,
    [violation_count] counts the frames whose status was drowsy or yawning
    (a frame on which a detector raised counts for nothing),
    [plate_detected] tells whether some frame carried a plate, and the
    session start and identity stay; a reset puts the count at 0, clears
    [plate_detected] and sets the session start and identity anew. *)
Theorem feed_counts_unsafe_frames s pre post :
  Forall (λ t, tick_key t ≠ KeyQuit) pre →
  Forall (λ t, tick_key t ≠ KeyReset) (processed post) →
  let s1 := (run_camera_feed s pre).2 in
  let r := run_camera_feed s (pre ++ post) in
  violation_count (current_session r.2) =
    violation_count (current_session s1)
    + Z.of_nat (length (filter (λ t, unsafe_tick t = true) (processed post))) ∧
  plate_detected (current_session r.2) =
    plate_detected (current_session s1) || existsb plate_tick (processed post) ∧
  session_start (current_session r.2) = session_start (current_session s1) ∧
  session_ident r.2 = session_ident s1 ∧
  (∀ pre' t, pre = pre' ++ [t] → tick_key t = KeyReset →
     violation_count (current_session s1) = 0 ∧
     plate_detected (current_session s1) = false ∧
     session_start (current_session s1) = Some (tick_time t) ∧
     session_ident s1 = tick_ident t).
Proof.
  intros Hpre Hpost. cbn zeta. rewrite run_camera_feed_app by done. cbn [snd].
  destruct (feed_session_no_reset post (run_camera_feed s pre).2 Hpost)
    as (Hc & Hp & Hs & Hi).
  do 4 (split; [done|]).
  intros pre' t -> Hkey. apply Forall_app in Hpre as [Hpre' _].
  destruct (run_camera_feed_reset_last pre' s t Hpre' Hkey) as [Hsess Hid].
  by rewrite Hsess, Hid.
Qed.

Lemma feed_counts_unsafe_frames_witness :
  let r := run_camera_feed Scenario.booth
             (Cases.before_reset ++ Cases.after_reset) in
  violation_count (current_session r.2) = 2 ∧
  plate_detected (current_session r.2) = true ∧
  session_start (current_session r.2) = Some 2000 ∧
  session_ident r.2 = 8.
Proof.
  assert (Hpre : Forall (λ t, tick_key t ≠ KeyQuit) Cases.before_reset)
    by (repeat constructor; discriminate).
  assert (Hpost : Forall (λ t, tick_key t ≠ KeyReset)
                    (processed Cases.after_reset))
    by (repeat constructor; discriminate).
  destruct (feed_counts_unsafe_frames Scenario.booth Cases.before_reset
              Cases.after_reset Hpre Hpost) as (Hc & Hp & Hs & Hi & Hreset).
  destruct (Hreset [Cases.tick (Some ([], Scenario.sleepy)) KeyOther]
              (Cases.tick (Some ([], Scenario.alert)) KeyReset)
              eq_refl eq_refl) as (H0 & Hp0 & Hs0 & Hi0).
  cbn zeta. rewrite Hc, Hp, Hs, Hi, H0, Hp0, Hs0, Hi0. repeat split.
Defined.

End TollMore.

(** * Further properties of the plate tracker *)
Module TrackerMore.
Import Dict Tracker TrackerSpec Cycles DictFacts TrackerFacts.

(** ** Registration *)

Lemma setitem_notin {V} (d : dict V) k v :
  k ∉ keys d → setitem d k v = d ++ [(k, v)].
Proof.
  unfold keys. induction d as [|[k' w] d IH]; simpl; [done|].
  intros Hk. apply not_elem_of_cons in Hk as [? ?].
  case_decide; [congruence|]. f_equal. by apply IH.
Qed.

Lemma getitem_imap {A V} (f : A → V) (l : list A) : ∀ n k,
  getitem (imap (λ i x, (n + i, f x)) l) k =
  if decide (k < n) then None else f <$> l !! (k - n).
Proof.
  induction l as [|x l IH]; intros n k.
  - simpl. by case_decide.
  - rewrite imap_cons. cbn [getitem]. rewrite Nat.add_0_r.
    case_decide as Hk; subst.
    + rewrite decide_False by lia. by rewrite Nat.sub_diag.
    + rewrite (imap_ext _ (λ i x, (S n + i, f x))) by (intros; simpl; f_equal; lia).
      rewrite IH. repeat case_decide; try lia; [done|].
      replace (k - n) with (S (k - S n)) by lia. done.
Qed.

Lemma keys_imap {A V} (f : A → V) (l : list A) n :
  keys (imap (λ i x, (n + i, f x)) l) = seq n (length l).
Proof.
  unfold keys. rewrite fmap_imap.
  rewrite (imap_ext _ (λ i _, n + i)) by done.
  revert n. induction l as [|x l IH]; intros n; [done|].
  rewrite imap_cons. cbn [length seq]. rewrite Nat.add_0_r. f_equal.
  rewrite <-IH. apply imap_ext. intros; simpl; lia.
Qed.

(** The registration loop, started after [pre] detections. *)
Lemma register_loop ds : ∀ pre t,
  Forall (λ k, k < next_object_id t) (keys (objects t)) →
  Forall (λ k, k < next_object_id t) (keys (disappeared t)) →
  for_each
    (λ t ic, txt ← (text_of <$> pre ++ ds) !! ic.1; Some (register t ic.2 txt))
    (zip (seq (length pre) (length ds)) (centroid_of <$> ds)) t
  = Some {| next_object_id := next_object_id t + length ds;
            objects := objects t
                       ++ imap (λ i d, (next_object_id t + i, new_entity d)) ds;
            disappeared := disappeared t
                           ++ imap (λ i d, (next_object_id t + i, 0%Z)) ds;
            max_disappeared := max_disappeared t;
            max_distance := max_distance t |}.
Proof.
  induction ds as [|d ds IH]; intros pre t Ho Hd.
  { cbn [length seq zip_with for_each imap]. rewrite !app_nil_r, Nat.add_0_r.
    by destruct t. }
  cbn [length seq fmap list_fmap zip_with for_each fst snd].
  rewrite list_lookup_fmap, lookup_app_r, Nat.sub_diag by done.
  cbn [lookup list_lookup fmap option_fmap option_map mbind option_bind].
  assert (Hfresh : ∀ l, Forall (λ k, k < next_object_id t) l →
                        next_object_id t ∉ l).
  { intros l Hl Hin. eapply Forall_forall in Hl; [|exact Hin]. simpl in Hl. lia. }
  specialize (IH (pre ++ [d]) (register t (centroid_of d) (text_of d))).
  rewrite length_app, Nat.add_1_r, <-(assoc_L (++)) in IH.
  cbn [app] in IH. rewrite IH; clear IH.
  - cbn [next_object_id objects disappeared max_disappeared max_distance register].
    rewrite !setitem_notin by (by apply Hfresh).
    rewrite !imap_cons, !Nat.add_0_r, <-!(assoc_L (++)). cbn [app].
    f_equal. f_equal; [lia| |].
    + do 2 f_equal. apply imap_ext. intros; simpl; f_equal; lia.
    + do 2 f_equal. apply imap_ext. intros; simpl; f_equal; lia.
  - cbn [next_object_id objects register].
    rewrite keys_setitem_notin by (by apply Hfresh).
    apply Forall_app. split; [|apply Forall_singleton; lia].
    eapply Forall_impl; [exact Ho|]. simpl. lia.
  - cbn [next_object_id disappeared register].
    rewrite keys_setitem_notin by (by apply Hfresh).
    apply Forall_app. split; [|apply Forall_singleton; lia].
    eapply Forall_impl; [exact Hd|]. simpl. lia.
Qed.

Lemma update_register_all t detections :
  wf t → objects t = [] → detections ≠ [] →
  update t detections =
  let t' := {| next_object_id := next_object_id t + length detections;
               objects := imap (λ i d, (next_object_id t + i, new_entity d))
                            detections;
               disappeared := imap (λ i d, (next_object_id t + i, 0%Z))
                                detections;
               max_disappeared := max_disappeared t;
               max_distance := max_distance t |} in
  Some (t', objects t').
Proof.
  intros (_ & Hk & _) Ho Hne. unfold update.
  rewrite decide_False by (by destruct detections).
  rewrite Ho, decide_True by done.
  assert (Hd : disappeared t = []).
  { rewrite Ho in Hk. unfold keys in Hk. by apply fmap_nil_inv in Hk. }
  pose proof (register_loop detections [] t) as Hloop.
  rewrite Ho, Hd in Hloop. cbn [app length] in Hloop.
  unfold enumerate. rewrite length_fmap, Hloop by apply Forall_nil_2.
  done.
Qed.

(** X15: on a tracker without entities, [update] registers one entity for
    each detection, in the order of the detections and under consecutive
    ids starting at [next_object_id]; nothing else is registered.  The
    boxes being in the range of image coordinates, entity
    [next_object_id + i] has the centroid of detection [i], the value of
    its ['text'] (the empty text when the key is absent), empty histories
    and [frames_missing] 0. *)
Theorem update_registers_all t detections :
  wf t → forallb coords_bbox detections = true →
  objects t = [] → detections ≠ [] →
  ∃ t', update t detections = Some (t', objects t') ∧
    next_object_id t' = next_object_id t + length detections ∧
    keys (objects t') = seq (next_object_id t) (length detections) ∧
    keys (disappeared t') = seq (next_object_id t) (length detections) ∧
    ∀ i d, detections !! i = Some d →
      getitem (objects t') (next_object_id t + i) =
        Some {| centroid := centroid_of d;
                plate_text := match text d with
                              | Some txt => txt
                              | None => EmptyString
                              end;
                track_history := []; confidence_history := [] |} ∧
      getitem (disappeared t') (next_object_id t + i) = Some 0%Z.
Proof.
  intros Hwf _ Ho Hne. rewrite update_register_all by done. cbn zeta.
  eexists. split; [reflexivity|].
  cbn [next_object_id objects disappeared].
  split; [done|]. rewrite !keys_imap. split; [done|]. split; [done|].
  intros i d Hi. rewrite !getitem_imap.
  rewrite !decide_False by lia.
  replace (next_object_id t + i - next_object_id t) with i by lia.
  by rewrite Hi.
Qed.

Lemma update_registers_all_witness :
  ∃ t', update (init 30 100) Scenario.two_detections = Some (t', objects t') ∧
    getitem (objects t') 0 = Some (Scenario.entity (300, 200)%Z "") ∧
    getitem (objects t') 1 = Some (Scenario.entity (37, 20)%Z "AB1234") ∧
    next_object_id t' = 2.
Proof.
  destruct (update_registers_all (init 30 100) Scenario.two_detections
              (wf_init 30 100) eq_refl eq_refl)
    as (t' & Hup & Hn & _ & _ & Hall); [discriminate|].
  exists t'. split; [exact Hup|].
  split; [exact (proj1 (Hall 0 _ eq_refl))|].
  split; [exact (proj1 (Hall 1 _ eq_refl)) | exact Hn].
Defined.

(** ** [register] and [deregister] *)

Lemma delitem_None {V} (d : dict V) k : delitem d k = None ↔ k ∉ keys d.
Proof.
  unfold keys. induction d as [|[k' v] d IH]; simpl.
  - split; [intros _; apply not_elem_of_nil | done].
  - case_decide; subst.
    + split; [done|]. intros Hk. exfalso. apply Hk. left.
    + rewrite not_elem_of_cons, <-IH. destruct (delitem d k); simpl.
      * split; [done | by intros [_ ?]].
      * split; [done | done].
Qed.

(** X22: on a well-formed tracker [deregister] raises exactly when the id
    is not tracked; deregistering the entity that [register] has just
    added gives back the entities and counters there were, with the id
    used up. *)
Theorem register_then_deregister t c txt :
  wf t →
  deregister (register t c txt) (next_object_id t) =
    Some {| next_object_id := S (next_object_id t);
            objects := objects t; disappeared := disappeared t;
            max_disappeared := max_disappeared t;
            max_distance := max_distance t |} ∧
  ∀ id, deregister t id = None ↔ id ∉ keys (objects t).
Proof.
  intros (Hnd & Hk & Hlt).
  assert (Hfresh : next_object_id t ∉ keys (objects t)).
  { intros Hin. eapply Forall_forall in Hlt; [|exact Hin]. simpl in Hlt. lia. }
  split.
  - unfold deregister, register. cbn [objects disappeared set_objects
      set_disappeared next_object_id max_disappeared max_distance].
    rewrite !setitem_notin by (by rewrite ?Hk).
    rewrite (delitem_app_hit (objects t) []), (delitem_app_hit (disappeared t) [])
      by (by rewrite ?Hk).
    cbn [mbind option_bind]. by rewrite !app_nil_r.
  - intros id. unfold deregister. rewrite <-delitem_None.
    destruct (delitem (objects t) id) as [o|] eqn:Ho; cbn [mbind option_bind].
    + assert (is_Some (delitem (disappeared t) id)) as [d ->].
      { destruct (delitem (disappeared t) id) eqn:Hd; [done|].
        apply delitem_None in Hd. rewrite Hk in Hd.
        apply delitem_None in Hd. congruence. }
      done.
    + done.
Qed.

Lemma register_then_deregister_witness :
  deregister (register (Scenario.lone_entity 3) (0, 0)%Z "X") 1
    = Some {| next_object_id := 2;
              objects := objects (Scenario.lone_entity 3);
              disappeared := disappeared (Scenario.lone_entity 3);
              max_disappeared := 30; max_distance := 100 |} ∧
  deregister (Scenario.lone_entity 3) 7 = None.
Proof.
  destruct (register_then_deregister (Scenario.lone_entity 3) (0, 0)%Z "X"
              (wf_singleton_example 3)) as [Hround Hraise].
  split; [exact Hround|]. apply Hraise.
  intros Hin. apply list_elem_of_singleton in Hin. discriminate Hin.
Defined.

(** ** Every cycle *)






(** ** Cycles without detections, repeated *)

Lemma updates_cons t ds cycles t1 tracked :
  update t ds = Some (t1, tracked) →
  updates t (ds :: cycles) = updates t1 cycles.
Proof. unfold updates. cbn [for_each]. by intros ->. Qed.

(** An id that is absent stays absent through cycles without detections. *)
Lemma absent_through_empty_cycles k : ∀ t id,
  wf t → getitem (disappeared t) id = None →
  ∃ t', updates t (replicate k []) = Some t' ∧
        getitem (objects t') id = None ∧ getitem (disappeared t') id = None.
Proof.
  induction k as [|k IH]; intros t id Hwf Hnone.
  { exists t. split; [done|]. split; [|done].
    destruct Hwf as (_ & Hk & _). apply getitem_None. rewrite <-Hk.
    by apply getitem_None. }
  pose proof (update_nil t Hwf) as Hup. cbn zeta in Hup.
  cbn [replicate]. rewrite (updates_cons _ _ _ _ _ Hup).
  apply IH.
  - by eapply wf_update.
  - cbn [disappeared]. destruct Hwf as (Hnd & Hk & _).
    rewrite getitem_aged_disappeared by (by rewrite Hk). by rewrite Hnone.
Qed.

(** X18: through [k] successive cycles without detections, an entity
    whose counter stands at [n] (not above [max_disappeared]) is kept,
    unchanged, with counter [n + k], as long as [n + k] does not exceed
    [max_disappeared], and is gone once it does: it is removed in cycle
    [max_disappeared - n + 1] and does not come back. *)
Theorem entity_expires_after_empty_cycles k : ∀ t id o n,
  wf t →
  getitem (objects t) id = Some o →
  getitem (disappeared t) id = Some n →
  (n ≤ max_disappeared t)%Z →
  ∃ t', updates t (replicate k []) = Some t' ∧
    ((n + Z.of_nat k ≤ max_disappeared t)%Z →
       getitem (objects t') id = Some o ∧
       getitem (disappeared t') id = Some (n + Z.of_nat k)%Z) ∧
    ((n + Z.of_nat k > max_disappeared t)%Z →
       getitem (objects t') id = None ∧
       getitem (disappeared t') id = None).
Proof.
  induction k as [|k IH]; intros t id o n Hwf Ho Hn Hle.
  { exists t. split; [done|]. rewrite Z.add_0_r. split; [done|lia]. }
  pose proof (update_nil t Hwf) as Hup. cbn zeta in Hup.
  pose proof (wf_update _ _ _ _ Hwf Hup) as Hwf1.
  cbn [replicate]. rewrite (updates_cons _ _ _ _ _ Hup).
  destruct Hwf as (Hnd & Hk & _).
  set (t1 := Build_PlateTracker _ _ _ _ _) in *.
  assert (Hd1 : getitem (disappeared t1) id =
                if bool_decide (n + 1 > max_disappeared t)%Z
                then None else Some (n + 1)%Z).
  { subst t1. cbn [disappeared].
    rewrite getitem_aged_disappeared by (by rewrite Hk). by rewrite Hn. }
  assert (Ho1 : getitem (objects t1) id =
                if bool_decide (n + 1 > max_disappeared t)%Z
                then None else Some o).
  { subst t1. cbn [objects].
    rewrite getitem_aged_objects by (by rewrite ?Hk). by rewrite Hn, Ho. }
  case_bool_decide as Hcmp.
  - destruct (absent_through_empty_cycles k t1 id Hwf1 Hd1)
      as (t' & Hups & Ho' & Hd').
    exists t'. split; [done|]. split; [lia|done].
  - destruct (IH t1 id o (n + 1)%Z Hwf1 Ho1 Hd1) as (t' & Hups & Hkeep & Hgone).
    { subst t1. cbn [max_disappeared]. lia. }
    exists t'. split; [done|].
    change (max_disappeared t1) with (max_disappeared t) in *.
    split; intros Hcase.
    + replace (n + Z.of_nat (S k))%Z with (n + 1 + Z.of_nat k)%Z by lia.
      apply Hkeep. lia.
    + apply Hgone. lia.
Qed.

Lemma entity_expires_after_empty_cycles_witness :
  (∃ t', updates (Scenario.lone_entity 0) (replicate 30 []) = Some t' ∧
         getitem (disappeared t') 0 = Some 30%Z) ∧
  (∃ t', updates (Scenario.lone_entity 0) (replicate 31 []) = Some t' ∧
         getitem (objects t') 0 = None).
Proof.
  split.
  - destruct (entity_expires_after_empty_cycles 30 (Scenario.lone_entity 0) 0
                (Scenario.entity (35, 20)%Z "AB1234") 0%Z
                (wf_singleton_example 0) eq_refl eq_refl)
      as (t' & Hup & Hkeep & _); [simpl; lia|].
    exists t'. split; [exact Hup|]. apply Hkeep. simpl. lia.
  - destruct (entity_expires_after_empty_cycles 31 (Scenario.lone_entity 0) 0
                (Scenario.entity (35, 20)%Z "AB1234") 0%Z
                (wf_singleton_example 0) eq_refl eq_refl)
      as (t' & Hup & _ & Hgone); [simpl; lia|].
    exists t'. split; [exact Hup|]. apply Hgone. simpl. lia.
Defined.

(** ** Histories *)






(** ** Which detection an entity is matched with *)

Lemma argmin_from_spec r : ∀ pre best_i best,
  pre !! best_i = Some best →
  (∀ j x, pre !! j = Some x → (best ≤ x)%Z) →
  (∀ j x, j < best_i → pre !! j = Some x → (best < x)%Z) →
  ∃ m, (pre ++ r) !! argmin_from best_i best (length pre) r = Some m ∧
       (∀ j x, (pre ++ r) !! j = Some x → (m ≤ x)%Z) ∧
       (∀ j x, j < argmin_from best_i best (length pre) r →
               (pre ++ r) !! j = Some x → (m < x)%Z).
Proof.
  induction r as [|x r IH]; intros pre best_i best Hb Hle Hlt.
  { cbn [argmin_from]. rewrite app_nil_r. by exists best. }
  cbn [argmin_from].
  replace (pre ++ x :: r) with ((pre ++ [x]) ++ r) by by rewrite <-(assoc_L (++)).
  replace (S (length pre)) with (length (pre ++ [x]))
    by (rewrite length_app; simpl; lia).
  destruct (x <? best)%Z eqn:Hx.
  - apply Z.ltb_lt in Hx. apply IH.
    + by rewrite lookup_app_r, Nat.sub_diag.
    + intros j y Hj. apply lookup_app_Some in Hj as [Hj|[_ Hj]].
      * specialize (Hle j y Hj). lia.
      * destruct (j - length pre); [|done]. injection Hj as <-. lia.
    + intros j y Hlt' Hj. rewrite lookup_app_l in Hj by done.
      specialize (Hle j y Hj). lia.
  - apply Z.ltb_ge in Hx. apply IH.
    + rewrite lookup_app_l; [done|]. by eapply lookup_lt_Some.
    + intros j y Hj. apply lookup_app_Some in Hj as [Hj|[_ Hj]].
      * by eapply Hle.
      * destruct (j - length pre); [|done]. by injection Hj as <-.
    + intros j y Hlt' Hj. apply lookup_lt_Some in Hb as Hbi.
      rewrite lookup_app_l in Hj by lia. by eapply Hlt.
Qed.

(** [argmin] is the first index of a least entry. *)
Lemma argmin_spec r :
  r ≠ [] →
  ∃ m, r !! argmin r = Some m ∧
       (∀ j x, r !! j = Some x → (m ≤ x)%Z) ∧
       (∀ j x, j < argmin r → r !! j = Some x → (m < x)%Z).
Proof.
  destruct r as [|x r]; [done|]. intros _. cbn [argmin].
  apply (argmin_from_spec r [x] 0 x).
  - done.
  - intros [|j] y; [intros [= <-]; lia | done].
  - intros j y Hj. lia.
Qed.

Lemma candidate_pairs_argmin D pairs row col :
  candidate_pairs D = Some pairs → (row, col) ∈ pairs →
  ∃ r, D !! row = Some r ∧ col = argmin r.
Proof.
  unfold candidate_pairs.
  destruct (mapM _ _) as [cols|] eqn:Hcols; [|done].
  intros [= <-] Hin. apply mapM_Some in Hcols.
  apply list_elem_of_lookup in Hin as [i Hi].
  apply lookup_zip_with_Some in Hi as (r & c & [= <- <-] & Hr & Hc).
  pose proof (Forall2_lookup_lr _ _ _ _ _ _ Hcols Hr Hc) as Harg.
  simpl in Harg. rewrite list_lookup_fmap in Harg.
  destruct (D !! row) as [r|]; [|done]. injection Harg as <-. by exists r.
Qed.

Lemma euclidean_le p q p' q' :
  (sqdist p q ≤ sqdist p' q')%Z → (euclidean p q <= euclidean p' q')%R.
Proof. intros Hle. unfold euclidean. apply sqrt_le_1_alt. by apply IZR_le. Qed.

Lemma euclidean_lt p q p' q' :
  (sqdist p q < sqdist p' q')%Z → (euclidean p q < euclidean p' q')%R.
Proof.
  intros Hlt. unfold euclidean. apply sqrt_lt_1_alt. split.
  - apply IZR_le, sqdist_nonneg.
  - by apply IZR_lt.
Qed.

Lemma getitem_elem {V} (d : dict V) k v :
  NoDup (keys d) → (k, v) ∈ d → getitem d k = Some v.
Proof.
  unfold keys. induction d as [|[k' v'] d IH]; [by intros _ ?%elem_of_nil|].
  rewrite fmap_cons, NoDup_cons. intros [Hk' Hnd] Hin. cbn [getitem].
  apply elem_of_cons in Hin as [[= <- <-]|Hin].
  - by rewrite decide_True.
  - rewrite decide_False; [by apply IH|]. intros ->. apply Hk'.
    apply list_elem_of_fmap. by exists (k, v).
Qed.

(** The value in row [row] of a dictionary is the value of the key in that
    row. *)
Lemma values_lookup {V} (d : list (nat * V)) row k v :
  NoDup (keys d) → keys d !! row = Some k → getitem d k = Some v →
  values d !! row = Some v.
Proof.
  intros Hnd Hrow Hv. unfold keys, values in *.
  rewrite list_lookup_fmap in Hrow. rewrite list_lookup_fmap.
  destruct (d !! row) as [[k' v']|] eqn:Hkv; simpl in *; [|done].
  injection Hrow as ->. apply list_elem_of_lookup_2 in Hkv.
  apply getitem_elem in Hkv; [|done]. congruence.
Qed.

Lemma key_of_row {V} (d : list (nat * V)) row v :
  NoDup (keys d) → values d !! row = Some v →
  ∃ k, keys d !! row = Some k ∧ getitem d k = Some v.
Proof.
  intros Hnd Hv. unfold keys, values in *. rewrite list_lookup_fmap in Hv.
  destruct (d !! row) as [[k v']|] eqn:Hkv; simpl in *; [|done].
  injection Hv as ->. exists k. rewrite list_lookup_fmap, Hkv.
  split; [done|]. apply getitem_elem; [done|]. by eapply list_elem_of_lookup_2.
Qed.

(** A committed pair joins an entity with a detection nearest to it, the
    first of them when several are equally near. *)
Lemma committed_pairs_nearest t detections row col o d :
  (row, col) ∈ committed_pairs t detections →
  values (objects t) !! row = Some o → detections !! col = Some d →
  ∀ col' d', detections !! col' = Some d' →
    (sqdist (centroid o) (centroid_of d)
     ≤ sqdist (centroid o) (centroid_of d'))%Z ∧
    (col' < col →
     (sqdist (centroid o) (centroid_of d)
      < sqdist (centroid o) (centroid_of d'))%Z).
Proof.
  unfold committed_pairs.
  destruct (candidate_pairs _) as [pairs|] eqn:Hpairs; [|by intros ?%elem_of_nil].
  intros Hin Ho Hd col' d' Hd'.
  destruct (matches_spec (distance_matrix (centroid <$> values (objects t))
               (centroid_of <$> detections)) (max_distance t) pairs ∅ ∅)
    as (_ & _ & Hall).
  apply Hall in Hin as (Hin & _).
  destruct (candidate_pairs_argmin _ _ _ _ Hpairs Hin) as (r & Hr & ->).
  unfold distance_matrix in Hr. rewrite !list_lookup_fmap, Ho in Hr.
  injection Hr as <-.
  destruct (argmin_spec (sqdist (centroid o) <$> (centroid_of <$> detections)))
    as (m & Hm & Hle & Hlt).
  { by destruct detections. }
  rewrite !list_lookup_fmap, Hd in Hm. injection Hm as <-.
  split.
  - apply (Hle col'). by rewrite !list_lookup_fmap, Hd'.
  - intros Hcol. apply (Hlt col'); [done|]. by rewrite !list_lookup_fmap, Hd'.
Qed.

(** X20: in a cycle with detections on a tracker that holds entities, the
    numbers being in the range [in_range], every entity either stays
    exactly as it was, counter included, or is moved to a detection that
    lies within [max_distance] of it and is nearest to it among all
    detections of the cycle (the first such detection when several are
    equally near); an entity is never moved to a detection when another
    one is nearer. *)
Theorem entity_moves_to_nearest_detection t detections :
  wf t → in_range t detections = true →
  detections ≠ [] → objects t ≠ [] →
  ∃ t', update t detections = Some (t', objects t') ∧
    ∀ id o, getitem (objects t) id = Some o →
      (getitem (objects t') id = Some o ∧
       getitem (disappeared t') id = getitem (disappeared t) id) ∨
      (∃ col d, detections !! col = Some d ∧
         getitem (objects t') id = Some (matched o d) ∧
         getitem (disappeared t') id = Some 0%Z ∧
         (euclidean (centroid o) (centroid_of d) <= IZR (max_distance t))%R ∧
         ∀ col' d', detections !! col' = Some d' →
           (euclidean (centroid o) (centroid_of d)
            <= euclidean (centroid o) (centroid_of d'))%R ∧
           (col' < col →
            (euclidean (centroid o) (centroid_of d)
             < euclidean (centroid o) (centroid_of d'))%R)).
Proof.
  intros Hwf _ Hdet Hobj.
  destruct (update_matching t detections Hwf Hdet Hobj)
    as (t' & ur & uc & Hup & Hloop).
  exists t'. split; [done|]. intros id o Ho.
  destruct Hwf as (Hnd & _ & _).
  assert (Hin : id ∈ keys (objects t)) by (apply getitem_is_Some; eauto).
  apply list_elem_of_lookup in Hin as [row Hrow].
  assert (Hval : values (objects t) !! row = Some o)
    by (by eapply values_lookup).
  destruct (decide (row ∈ (committed_pairs t detections).*1)) as [Hm|Hm].
  - right. apply list_elem_of_fmap in Hm as ([row' col] & -> & Hm).
    cbn [fst] in *.
    pose proof Hm as Hspec.
    apply committed_pairs_spec in Hspec as (o' & d & Ho' & Hd & Hex).
    assert (o' = o) as -> by congruence.
    exists col, d. split; [done|].
    destruct (committed_pairs_NoDup t detections) as [Hr _].
    destruct (commit_loop_matched _ _ _ _ _ _ _ _ _ _ row' col id o
                (centroid_of d) (text_of d) Hloop Hnd Hr Hm Hrow Ho)
      as [Hobj' Hdis']; [by rewrite list_lookup_fmap, Hd ..|].
    rewrite commit_matched in Hobj'.
    split; [done|]. split; [done|]. split; [by apply exceeds_euclidean|].
    intros col' d' Hd'.
    destruct (committed_pairs_nearest t detections row' col o d Hm Hval Hd
                col' d' Hd') as [Hle Hlt].
    split; [by apply euclidean_le|]. intros Hcol. by apply euclidean_lt, Hlt.
  - left.
    destruct (commit_loop_unmatched _ _ _ _ _ _ _ _ _ _ row id Hloop Hnd Hrow Hm)
      as [-> ->].
    done.
Qed.

Lemma entity_moves_to_nearest_detection_witness :
  ∃ t', update Scenario.two_entities Scenario.two_detections
          = Some (t', objects t') ∧
    (centroid <$> getitem (objects t') 0) = Some (37, 20)%Z ∧
    (centroid <$> getitem (objects t') 1) = Some (300, 200)%Z.
Proof.
  destruct (entity_moves_to_nearest_detection Scenario.two_entities
              Scenario.two_detections wf_two_entities_example)
    as (t' & Hup & _); [reflexivity | discriminate | discriminate |].
  exists t'. split; [exact Hup|].
  injection Hup as <-. split; reflexivity.
Defined.

(** ** The closest pair *)

Lemma foldl_min_spec r : ∀ x,
  (foldl Z.min x r = x ∨ foldl Z.min x r ∈ r) ∧
  (foldl Z.min x r ≤ x)%Z ∧ ∀ y, y ∈ r → (foldl Z.min x r ≤ y)%Z.
Proof.
  induction r as [|z r IH]; intros x.
  { split; [by left|]. split; [done|]. by intros y ?%elem_of_nil. }
  cbn [foldl]. destruct (IH (Z.min x z)) as (Hin & Hle & Hall).
  split; [|split].
  - destruct Hin as [Heq|Hin]; [|right; by right].
    destruct (Z.min_spec x z) as [[_ Hm]|[_ Hm]].
    + left. congruence.
    + right. rewrite Heq, Hm. left.
  - lia.
  - intros y [->|Hy]%elem_of_cons; [lia | by apply Hall].
Qed.

Lemma row_min_spec r :
  r ≠ [] → row_min r ∈ r ∧ ∀ y, y ∈ r → (row_min r ≤ y)%Z.
Proof.
  destruct r as [|x r]; [done|]. intros _. cbn [row_min].
  destruct (foldl_min_spec r x) as (Hin & Hle & Hall). split.
  - destruct Hin as [->|Hin]; [left | by right].
  - intros y [->|Hy]%elem_of_cons; [done | by apply Hall].
Qed.

(** The entry at [argmin] is the least entry. *)
Lemma lookup_argmin r : r ≠ [] → r !! argmin r = Some (row_min r).
Proof.
  intros Hne. destruct (argmin_spec r Hne) as (m & Hm & Hle & _).
  destruct (row_min_spec r Hne) as [Hin Hmin].
  rewrite Hm. f_equal. apply Z.le_antisymm.
  - apply list_elem_of_lookup in Hin as [j Hj]. by eapply Hle.
  - apply Hmin. by eapply list_elem_of_lookup_2.
Qed.

Lemma sorted_indices_head (l : list (Z * nat)) :
  l ≠ [] →
  ∃ k0 i0 rest,
    foldr (λ ki acc, insert_by ki.1 ki.2 acc) [] l = (k0, i0) :: rest ∧
    (k0, i0) ∈ l ∧ ∀ ki, ki ∈ l → (k0 ≤ ki.1)%Z.
Proof.
  induction l as [|[k i] l IH]; [done|]. intros _. cbn [foldr fst snd].
  destruct (decide (l = [])) as [->|Hne].
  { exists k, i, []. split; [done|]. split; [left|].
    intros ki [->|?%elem_of_nil]%elem_of_cons; done. }
  destruct (IH Hne) as (k1 & i1 & rest1 & -> & Hin & Hall).
  cbn [insert_by]. destruct (k <=? k1)%Z eqn:Hk.
  - apply Z.leb_le in Hk. eexists k, i, _. split; [done|]. split; [left|].
    intros ki [->|Hki]%elem_of_cons; [done|]. specialize (Hall ki Hki). lia.
  - apply Z.leb_gt in Hk. eexists k1, i1, _. split; [done|].
    split; [by right|].
    intros ki [->|Hki]%elem_of_cons; [simpl; lia | by apply Hall].
Qed.

(** The first row [argsort] lists holds a least entry. *)
Lemma argsort_head a :
  a ≠ [] →
  ∃ row0 rest m, argsort a = row0 :: rest ∧ a !! row0 = Some m ∧
                 ∀ j x, a !! j = Some x → (m ≤ x)%Z.
Proof.
  intros Hne. unfold argsort.
  destruct (sorted_indices_head (zip a (seq 0 (length a))))
    as (k0 & i0 & rest & -> & Hin & Hall).
  { destruct a; [done|]. simpl. done. }
  exists i0, rest.*2, k0. split; [done|].
  assert (Hzip : ∀ k i, (k, i) ∈ zip a (seq 0 (length a)) ↔ a !! i = Some k).
  { intros k i. rewrite list_elem_of_lookup. split.
    - intros (j & Hj). apply lookup_zip_with_Some in Hj
        as (x & y & [= <- <-] & Hx & Hy).
      apply lookup_seq in Hy as [-> _]. done.
    - intros Hi. exists i. apply lookup_zip_with_Some. exists k, i.
      split; [done|]. split; [done|]. apply lookup_seq. split; [done|].
      by eapply lookup_lt_Some. }
  split; [by apply Hzip|]. intros j x Hj.
  apply (Hall (x, j)). by apply Hzip.
Qed.

Lemma exceeds_mono d d' mx :
  (d ≤ d')%Z → exceeds d' mx = false → exceeds d mx = false.
Proof.
  unfold exceeds. rewrite !orb_false_iff, !Z.ltb_ge. lia.
Qed.

(** When some pair passes the distance test, the first pair the loop meets
    is a closest pair and is committed. *)
Lemma closest_pair_committed t detections :
  detections ≠ [] → objects t ≠ [] →
  (∃ o d, o ∈ values (objects t) ∧ d ∈ detections ∧
     exceeds (sqdist (centroid o) (centroid_of d)) (max_distance t) = false) →
  ∃ row col o d,
    (row, col) ∈ committed_pairs t detections ∧
    values (objects t) !! row = Some o ∧ detections !! col = Some d ∧
    ∀ o' d', o' ∈ values (objects t) → d' ∈ detections →
      (sqdist (centroid o) (centroid_of d)
       ≤ sqdist (centroid o') (centroid_of d'))%Z.
Proof.
  intros Hdet Hobj (o1 & d1 & Ho1 & Hd1 & Hex).
  unfold committed_pairs.
  set (ics := centroid_of <$> detections).
  set (ocs := centroid <$> values (objects t)).
  set (D := distance_matrix ocs ics).
  assert (Hics : ics ≠ []) by (subst ics; by destruct detections).
  assert (HD : D ≠ []).
  { subst D ocs. unfold distance_matrix, values. by destruct (objects t). }
  destruct (argsort_head (row_min <$> D)) as (row0 & rest & m & Hsort & Hm & Hmin).
  { by destruct D. }
  rewrite list_lookup_fmap in Hm.
  destruct (D !! row0) as [r0|] eqn:Hr0; [|done]. injection Hm as <-.
  assert (Hrow : ∃ o, values (objects t) !! row0 = Some o ∧
                      r0 = sqdist (centroid o) <$> ics).
  { subst D ocs. unfold distance_matrix in Hr0.
    rewrite !list_lookup_fmap in Hr0.
    destruct (values (objects t) !! row0) as [o|]; [|done].
    injection Hr0 as <-. by exists o. }
  destruct Hrow as (o & Ho & ->).
  set (r0 := sqdist (centroid o) <$> ics) in *.
  assert (Hr0ne : r0 ≠ []) by (subst r0; by destruct ics).
  pose proof (lookup_argmin r0 Hr0ne) as Hcol.
  assert (Hd : ∃ d, detections !! argmin r0 = Some d ∧
                    row_min r0 = sqdist (centroid o) (centroid_of d)).
  { subst r0 ics. rewrite !list_lookup_fmap in Hcol.
    destruct (detections !! _) as [d|]; [|done].
    injection Hcol as Hcol. by exists d. }
  destruct Hd as (d & Hd & Hval).
  assert (Hleast : ∀ o' d', o' ∈ values (objects t) → d' ∈ detections →
            (row_min r0 ≤ sqdist (centroid o') (centroid_of d'))%Z).
  { intros o' d' [j Hj]%list_elem_of_lookup Hd'.
    set (r' := sqdist (centroid o') <$> ics).
    assert (Hr' : D !! j = Some r').
    { subst D ocs r'. unfold distance_matrix. by rewrite !list_lookup_fmap, Hj. }
    assert (row_min r0 ≤ row_min r')%Z as Hle.
    { apply (Hmin j). by rewrite list_lookup_fmap, Hr'. }
    destruct (row_min_spec r') as [_ Hall]; [subst r'; by destruct ics|].
    specialize (Hall (sqdist (centroid o') (centroid_of d'))).
    assert (sqdist (centroid o') (centroid_of d') ∈ r') as Hin.
    { subst r' ics. apply list_elem_of_fmap. eexists. split; [done|].
      apply list_elem_of_fmap. by exists d'. }
    specialize (Hall Hin). lia. }
  destruct (candidate_pairs_Some ocs ics Hics) as (pairs & Hpairs & _).
  fold D in Hpairs. rewrite Hpairs.
  assert (Hhead : ∃ pairs', pairs = (row0, argmin r0) :: pairs').
  { unfold candidate_pairs in Hpairs. rewrite Hsort in Hpairs.
    cbn [mapM] in Hpairs. rewrite list_lookup_fmap, Hr0 in Hpairs.
    cbn [fmap option_fmap option_map mbind option_bind] in Hpairs.
    destruct (mapM _ rest) as [cols|]; [|done].
    cbn [mbind option_bind mret option_ret] in Hpairs.
    injection Hpairs as <-. by eexists. }
  destruct Hhead as [pairs' ->].
  exists row0, (argmin r0), o, d. split; [|split; [done|split; [done|]]].
  - cbn [matches].
    assert (Hskip : skips D (max_distance t) ∅ ∅ (row0, argmin r0) = Some false).
    { apply skips_false. cbn [fst snd].
      split; [apply not_elem_of_empty|]. split; [apply not_elem_of_empty|].
      exists (row_min r0). split.
      - unfold D_at. rewrite Hr0. simpl. exact Hcol.
      - eapply exceeds_mono; [|exact Hex]. by apply Hleast. }
    rewrite Hskip. left.
  - intros o' d' Ho' Hd'. rewrite <-Hval. by apply Hleast.
Qed.

(** X21: in a cycle with detections on a tracker that holds entities, the
    numbers being in the range [in_range], if some entity and some
    detection lie within [max_distance] of each other then a match is
    made: an entity and a detection that are closest to each other among
    all pairs of the cycle are matched. *)
Theorem closest_pair_is_matched t detections :
  wf t → in_range t detections = true →
  detections ≠ [] → objects t ≠ [] →
  (∃ o d, o ∈ values (objects t) ∧ d ∈ detections ∧
     (euclidean (centroid o) (centroid_of d) <= IZR (max_distance t))%R) →
  ∃ t' id o d,
    update t detections = Some (t', objects t') ∧
    getitem (objects t) id = Some o ∧ d ∈ detections ∧
    getitem (objects t') id = Some (matched o d) ∧
    getitem (disappeared t') id = Some 0%Z ∧
    ∀ o' d', o' ∈ values (objects t) → d' ∈ detections →
      (euclidean (centroid o) (centroid_of d)
       <= euclidean (centroid o') (centroid_of d'))%R.
Proof.
  intros Hwf _ Hdet Hobj (o1 & d1 & Ho1 & Hd1 & Hnear).
  destruct (closest_pair_committed t detections Hdet Hobj)
    as (row & col & o & d & Hin & Ho & Hd & Hleast).
  { exists o1, d1. split; [done|]. split; [done|]. by apply exceeds_euclidean. }
  destruct (update_matching t detections Hwf Hdet Hobj)
    as (t' & ur & uc & Hup & Hloop).
  destruct Hwf as (Hnd & _ & _).
  assert (Hid : ∃ id, keys (objects t) !! row = Some id ∧
                      getitem (objects t) id = Some o).
  { by apply key_of_row. }
  destruct Hid as (id & Hid & Hget).
  destruct (committed_pairs_NoDup t detections) as [Hr _].
  destruct (commit_loop_matched _ _ _ _ _ _ _ _ _ _ row col id o
              (centroid_of d) (text_of d) Hloop Hnd Hr Hin Hid Hget)
    as [Hobj' Hdis']; [by rewrite list_lookup_fmap, Hd ..|].
  rewrite commit_matched in Hobj'.
  exists t', id, o, d. split; [done|]. split; [done|].
  split; [by eapply list_elem_of_lookup_2|]. split; [done|]. split; [done|].
  intros o' d' Ho' Hd'. by apply euclidean_le, Hleast.
Qed.

Lemma closest_pair_is_matched_witness :
  ∃ t' id o d,
    update Scenario.two_entities Scenario.two_detections
      = Some (t', objects t') ∧
    getitem (objects Scenario.two_entities) id = Some o ∧
    getitem (objects t') id = Some (matched o d).
Proof.
  destruct (closest_pair_is_matched Scenario.two_entities
              Scenario.two_detections wf_two_entities_example)
    as (t' & id & o & d & Hup & Ho & _ & Hm & _);
    [reflexivity | discriminate | discriminate | |].
  - exists (Scenario.entity (300, 200)%Z "CD5678"),
      (Scenario.detection 290 190 20 20 "").
    split; [right; left|]. split; [left|].
    apply exceeds_euclidean. reflexivity.
  - exists t', id, o, d. split; [exact Hup|]. split; [exact Ho | exact Hm].
Defined.

End TrackerMore.
